(** * SixelConverter: band-wise SIXEL encoding of a palette image

    Shallow embedding of [src/sixel/converter.py] and the properties of its
    band encoder, run-length compression and stream layout.

    Conventions of the embedding.
    - Image coordinates, buffer positions, repeat counts and palette
      indices are [nat]; a six-pixel bitmask is an [N] built with [N.lor]
      and [N.shiftl], as the source builds it with [|=] and [<<].
    - [data], [rawdata] and [palette] are lists read with stdpp's lookup;
      a read out of range raises [IndexError], as a Python sequence does.
    - [seen] is a Python set, modelled as a [gset nat]; [buf] is a Python
      list of [(color, nodes)] pairs in append order.  Both are shared by
      the nested calls of [add_node] and are threaded through them.
    - [add_node] calls itself; the embedding bounds the call depth by a
      [depth] argument (the interpreter's recursion limit) and raises
      [RecursionError] when it is exhausted.
    - The output sink is the text written so far; a write appends to it,
      and what was written stays there when a later step raises.
    - Text is a [string] whose characters are code points below 256;
      [chr] is only applied to [0x3f + six] with [six < 64]
      (lemma [six_of_lt_64]). *)

From stdpp Require Import gmap list sets strings pretty.
From Stdlib Require Import NArith Ascii.

Open Scope nat_scope.
Set Warnings "-clear-no-such-hyp".

(** ** Exceptions and the two effect layers *)

Inductive exn : Type :=
  | IndexError
  | RecursionError.

Inductive result (A : Type) : Type :=
  | Ok (a : A)
  | Raise (e : exn).
Arguments Ok {A} a.
Arguments Raise {A} e.

Definition rbind {A B} (m : result A) (k : A → result B) : result B :=
  match m with
  | Ok a => k a
  | Raise e => Raise e
  end.

Notation "'let*' x ':=' m 'in' k" := (rbind m (fun x => k))
  (at level 10, x pattern, m at level 100, k at level 200).

(** [seq_index l p] is the Python expression [l[p]] for [p >= 0]. *)
Definition seq_index {A} (l : list A) (p : nat) : result A :=
  match l !! p with
  | Some a => Ok a
  | None => Raise IndexError
  end.

(** A Python [for] loop over the items of [l], threading the loop state. *)
Fixpoint for_each {A S} (body : A → S → result S) (l : list A) (s : S)
  : result S :=
  match l with
  | [] => Ok s
  | a :: l' => let* s' := body a s in for_each body l' s'
  end.

(** Computations that write to the sink: they take the text written so far
    and return the text written afterwards, also when they raise. *)
Definition io (A : Type) : Type := string → result A * string.

Definition io_ret {A} (a : A) : io A := fun out => (Ok a, out).

Definition io_bind {A B} (m : io A) (k : A → io B) : io B :=
  fun out =>
    match m out with
    | (Ok a, out') => k a out'
    | (Raise e, out') => (Raise e, out')
    end.

Definition io_lift {A} (m : result A) : io A := fun out => (m, out).

(** [output.write(s)] *)
Definition write_str (s : string) : io unit :=
  fun out => (Ok tt, out +:+ s).

Notation "'do*' x ':=' m 'in' k" := (io_bind m (fun x => k))
  (at level 10, x pattern, m at level 100, k at level 200).
Notation "m ';;;' k" := (io_bind m (fun _ => k))
  (at level 100, k at level 200, right associativity).

Fixpoint io_for {A} (body : A → io unit) (l : list A) : io unit :=
  match l with
  | [] => io_ret tt
  | a :: l' => body a ;;; io_for body l'
  end.

(** ** Python helpers *)

(** [range(start, stop, step)] for [step > 0]: count up from [start] while
    below [stop].  At most [stop] values are produced. *)
Fixpoint range_go (fuel cur stop step : nat) : list nat :=
  match fuel with
  | 0 => []
  | S fuel' =>
      if cur <? stop then cur :: range_go fuel' (cur + step) stop step
      else []
  end.

Definition range3 (start stop step : nat) : list nat :=
  range_go stop start stop step.

(** [range(start, stop)] *)
Definition range2 (start stop : nat) : list nat := seq start (stop - start).

(** [chr(n)] for [n < 256]. *)
Definition chr (n : N) : ascii := ascii_of_N n.

(** [ch * count] *)
Fixpoint str_mul (ch : ascii) (count : nat) : string :=
  match count with
  | 0 => EmptyString
  | S n => String ch (str_mul ch n)
  end.

(** ['%d' % n] for a non-negative integer. *)
Definition fmt_d (n : nat) : string := pretty n.

Definition str1 (ch : ascii) : string := String ch EmptyString.

(** The double-quote character of the header template. *)
Definition dquote : ascii := ascii_of_nat 34.

(** ** The band encoder *)

(** One Run: a bitmask symbol and its repeat count. *)
Definition run_t : Type := N * nat.
(** One Color Node: a color and its Runs. *)
Definition node_t : Type := nat * list run_t.

(** An RGBA pixel of [rawdata]. *)
Definition rgba : Type := nat * nat * nat * nat.
Definition alpha_of (px : rgba) : nat := snd px.

(** Sentinel for background / no pixel set. *)
Definition BG : nat := 256.

Section Band.
(** The variables the closures [get_pixel] and [add_node] capture. *)
Variable width : nat.
Variable data : list nat.
Variable rawdata : option (list rgba).
Variable alpha_threshold : nat.
Variable y : nat.
Variable band : nat.

Definition get_pixel (p : nat) : result nat :=
  match rawdata with
  | Some raw =>
      let* px := seq_index raw p in
      if alpha_of px <? alpha_threshold then Ok BG else seq_index data p
  | None => seq_index data p
  end.

(** The mutable state shared by all calls of [add_node]. *)
Definition shared : Type := gset nat * list node_t.

(** Body of [for i in range(0, band)] at column [x]; [self_call] is the
    recursive call [add_node(d, x)]. *)
Definition scan_pixel (self_call : nat → nat → shared → result shared)
    (color x i : nat) (st : shared * N) : result (shared * N) :=
  let '((seen, buf), six) := st in
  let p0 := y * width + x in
  let p := p0 + width * i in
  let* d := get_pixel p in
  if d =? BG then Ok st
  else if d =? color then
    Ok ((seen, buf), N.lor six (N.shiftl 1 (N.of_nat i)))
  else if decide (d ∈ seen) then Ok st
  else
    let* sh := self_call d x ({[d]} ∪ seen, buf) in
    Ok (sh, six).

(** The locals [nodes], [cache] and [run]. *)
Definition rle_state : Type := list run_t * option N * nat.

(** The [if cache is None / elif six == cache / else] statement. *)
Definition rle_push (rs : rle_state) (six : N) : rle_state :=
  let '(nodes, cache, run) := rs in
  match cache with
  | None => (nodes, Some six, 1)
  | Some c =>
      if (six =? c)%N then (nodes, cache, run + 1)
      else (nodes ++ [(c, run)], Some six, 1)
  end.

(** [if cache is not None and run: nodes.append((cache, run))] *)
Definition rle_close (rs : rle_state) : list run_t :=
  let '(nodes, cache, run) := rs in
  match cache with
  | Some c => if run =? 0 then nodes else nodes ++ [(c, run)]
  | None => nodes
  end.

(** Body of [for x in range(start_x, width)]. *)
Definition scan_column (self_call : nat → nat → shared → result shared)
    (color x : nat) (st : shared * rle_state)
  : result (shared * rle_state) :=
  let '(sh, rs) := st in
  let* (sh', six) :=
    for_each (scan_pixel self_call color x) (range2 0 band) (sh, 0%N) in
  Ok (sh', rle_push rs six).

Definition add_node_body (self_call : nat → nat → shared → result shared)
    (color start_x : nat) (sh : shared) : result shared :=
  let nodes : list run_t :=
    if start_x =? 0 then [] else [(0%N, start_x)] in
  let* ((seen, buf), rs) :=
    for_each (scan_column self_call color) (range2 start_x width)
             (sh, (nodes, None, 0)) in
  Ok (seen, buf ++ [(color, rle_close rs)]).

Fixpoint add_node (depth : nat) (color start_x : nat) (sh : shared)
  : result shared :=
  match depth with
  | 0 => Raise RecursionError
  | S depth' => add_node_body (add_node depth') color start_x sh
  end.

(** The [for x in range(width)] loop with [break] that looks for the
    first non-BG pixel of the band's first row; returns [(found, x)]. *)
Fixpoint scan_first_row (xs : list nat) : result (option (nat * nat)) :=
  match xs with
  | [] => Ok None
  | x :: xs' =>
      let* d := get_pixel (y * width + x) in
      if d =? BG then scan_first_row xs' else Ok (Some (d, x))
  end.

(** The part of the band loop that fills [buf]. *)
Definition encode_band (depth : nat) : result (list node_t) :=
  let* first := get_pixel (y * width) in
  if negb (first =? BG) then
    let* (_, buf) := add_node depth first 0 ({[first]}, []) in
    Ok buf
  else
    let* found := scan_first_row (range2 0 width) in
    match found with
    | Some (d, x) =>
        let* (_, buf) := add_node depth d x ({[d]}, []) in
        Ok buf
    | None => Ok []
    end.
End Band.

(** ** Emission *)

(** Text written for one Run by the [for six, count in nodes] loop. *)
Definition run_text (r : run_t) : string :=
  let '(six, count) := r in
  let ch := chr (0x3f + six) in
  if count <? 4 then str_mul ch count
  else "!" +:+ fmt_d count +:+ str1 ch.

Definition write_node (nd : node_t) : io unit :=
  let '(color, nodes) := nd in
  write_str ("#" +:+ fmt_d color) ;;;
  io_for (fun r => write_str (run_text r)) nodes ;;;
  write_str "$".

(** ** The converter object and the sequence writer *)

(** The attributes of a constructed [SixelConverter] that [write] reads.
    [rawdata] is only set, and only read, when [alpha_threshold > 0]. *)
Record converter : Type := {
  f8bit : bool;
  ncolor : nat;
  alpha_threshold : nat;
  chromakey : bool;
  palette : list nat;
  data : list nat;
  rawdata : list rgba;
  width : nat;
  height : nat
}.

Definition DCS (self : converter) : string :=
  if f8bit self then str1 (ascii_of_nat 144)
  else String (ascii_of_nat 27) "P".

Definition ST (self : converter) : string :=
  if f8bit self then str1 (ascii_of_nat 156)
  else String (ascii_of_nat 27) "\".

(** The text of [template % args] in [__write_header]. *)
Definition header_text (self : converter) : string :=
  let aspect_ratio := 7 in
  let background_option := if chromakey self then 2 else 1 in
  let dpi := 75 in
  fmt_d aspect_ratio +:+ ";" +:+ fmt_d background_option +:+ ";"
    +:+ fmt_d dpi +:+ "q" +:+ String dquote "1;1;"
    +:+ fmt_d (width self) +:+ ";" +:+ fmt_d (height self).

Definition write_header (self : converter) : io unit :=
  write_str (DCS self) ;;;
  write_str (header_text self).

(** Body of [for n in range(0, self._ncolor)]. *)
Definition write_color (self : converter) (n : nat) : io unit :=
  do* r0 := io_lift (seq_index (palette self) (n * 3 + 0)) in
  let r := r0 * 100 / 256 in
  do* g0 := io_lift (seq_index (palette self) (n * 3 + 1)) in
  let g := g0 * 100 / 256 in
  do* b0 := io_lift (seq_index (palette self) (n * 3 + 2)) in
  let b := b0 * 100 / 256 in
  write_str ("#" +:+ fmt_d n +:+ ";2;" +:+ fmt_d r +:+ ";" +:+ fmt_d g
               +:+ ";" +:+ fmt_d b).

(** Body of [for y in range(0, height, 6)]. *)
Definition write_band (self : converter) (raw : option (list rgba))
    (depth : nat) (y : nat) : io unit :=
  let band := Nat.min 6 (height self - y) in
  do* buf := io_lift (encode_band (width self) (data self) raw
                        (alpha_threshold self) y band depth) in
  io_for write_node buf ;;;
  if y + 6 <? height self then write_str "-" else io_ret tt.

Definition write_body_bandwise (self : converter) (raw : option (list rgba))
    (depth : nat) : io unit :=
  io_for (write_color self) (range2 0 (ncolor self)) ;;;
  io_for (write_band self raw depth) (range3 0 (height self) 6).

Definition write_body_section (self : converter) (depth : nat) : io unit :=
  let raw := if 0 <? alpha_threshold self then Some (rawdata self)
             else None in
  write_body_bandwise self raw depth.

Definition write_terminator (self : converter) : io unit :=
  write_str (ST self).

(** [write(output, body_only)]; [depth] is the recursion limit in force. *)
Definition write (self : converter) (body_only : bool) (depth : nat)
  : io unit :=
  (if negb body_only then write_header self else io_ret tt) ;;;
  write_body_section self depth ;;;
  if negb body_only then write_terminator self else io_ret tt.

(** ** Specification-side definitions *)

(** The symbols a Run sequence stands for, one per column. *)
Definition expand (runs : list run_t) : list N :=
  flat_map (fun r : run_t => replicate r.2 r.1) runs.

(** Sum of the repeat counts of a Run sequence. *)
Definition run_total (runs : list run_t) : nat :=
  foldr (fun (r : run_t) acc => r.2 + acc) 0 runs.

(** No two neighbours of a list are equal. *)
Fixpoint adj_distinct (l : list N) : Prop :=
  match l with
  | a :: (b :: _) as t => a ≠ b ∧ adj_distinct t
  | _ => True
  end.

(** A Run sequence is well formed: no empty Run, no two adjacent Runs with
    the same bitmask. *)
Definition runs_wf (runs : list run_t) : Prop :=
  Forall (fun r : run_t => r.2 ≠ 0) runs ∧ adj_distinct runs.*1.

(** Bit [i] of the symbol a node holds at column [x]. *)
Definition bit_at (nd : node_t) (x i : nat) : bool :=
  match expand nd.2 !! x with
  | Some six => N.testbit six (N.of_nat i)
  | None => false
  end.

(** What the band encoder computes, stated on the pixels of one band. *)
Section BandSpec.
Variable width : nat.
Variable data : list nat.
Variable rawdata : option (list rgba).
Variable alpha_threshold : nat.
Variable y : nat.
Variable band : nat.

(** The pixel of the band at column [x], sub-row [i], as [get_pixel]
    reads it. *)
Definition pixel_at (x i : nat) : result nat :=
  get_pixel data rawdata alpha_threshold (y * width + x + width * i).

(** The bitmask of [color] at column [x]: bit [i] for each sub-row whose
    pixel is [color]. *)
Definition six_of (color x : nat) : N :=
  fold_left
    (fun (six : N) (i : nat) =>
       match pixel_at x i with
       | Ok d => if d =? color then N.lor six (N.shiftl 1 (N.of_nat i))
                 else six
       | Raise _ => six
       end)
    (range2 0 band) 0%N.

(** The Runs a node starts with: the leading empty cells. *)
Definition first_nodes (start_x : nat) : list run_t :=
  if start_x =? 0 then [] else [(0%N, start_x)].

(** The node of [color] when its scan starts at [start_x]. *)
Definition encode_row (color start_x : nat) : node_t :=
  (color,
   rle_close (fold_left rle_push
                (map (six_of color) (range2 start_x width))
                (first_nodes start_x, None, 0))).

(** A scan of [color] starts at a column that holds a pixel of [color]:
    the column where the color was found. *)
Definition start_ok (color start_x : nat) : Prop :=
  (start_x = 0 ∨ start_x < width)
  ∧ ∃ i, i < band ∧ pixel_at start_x i = Ok color.

Definition node_ok (nd : node_t) : Prop :=
  nd.1 ≠ BG ∧ ∃ start_x, start_ok nd.1 start_x ∧ nd = encode_row nd.1 start_x.

(** [new] holds one well-built node for each color that entered [seen]
    on the way to [seen']. *)
Definition fresh (seen seen' : gset nat) (new : list node_t) : Prop :=
  NoDup new.*1 ∧
  (∀ c, c ∈ new.*1 ↔ c ∈ seen' ∧ c ∉ seen) ∧
  Forall node_ok new.

(** The seed of a band: the first pixel of its first row that is not BG,
    found at column [x0]. *)
Definition seeded (seed x0 : nat) : Prop :=
  seed ≠ BG ∧ pixel_at x0 0 = Ok seed ∧ (x0 = 0 ∨ x0 < width) ∧
  ∀ x, x < x0 → pixel_at x 0 = Ok BG.

(** Every visible color between column [lo] and column [x], and above
    sub-row [j] in column [x], is in [seen]. *)
Definition known (lo : nat) (seen : gset nat) (x j : nat) : Prop :=
  ∀ x' i c, i < band → lo ≤ x' → x' < x ∨ (x' = x ∧ i < j) →
    pixel_at x' i = Ok c → c ≠ BG → c ∈ seen.

(** A node that holds the bitmask of its color at every column from [lo]
    on. *)
Definition node_full (lo : nat) (nd : node_t) : Prop :=
  ∀ x, lo ≤ x → x < width → expand nd.2 !! x = Some (six_of nd.1 x).

(** The nodes appended on the way from [sh] to [sh'] are all full from
    column [lo] on. *)
Definition covers (lo : nat) (sh sh' : shared) : Prop :=
  sh.1 ⊆ sh'.1 ∧ ∃ new, sh'.2 = sh.2 ++ new ∧ Forall (node_full lo) new.

(** How the shared state may change while [add_node] runs. *)
Definition extends (sh sh' : shared) : Prop :=
  sh.1 ⊆ sh'.1 ∧ ∃ new, sh'.2 = sh.2 ++ new ∧ fresh sh.1 sh'.1 new.

(** What a call [add_node(color, start_x)] that returns has done. *)
Definition add_node_post (color start_x : nat) (sh sh' : shared) : Prop :=
  sh.1 ⊆ sh'.1 ∧
  ∃ new, sh'.2 = sh.2 ++ new ++ [encode_row color start_x] ∧
         fresh sh.1 sh'.1 new.
End BandSpec.

(** ** Text of the stream, stated without the sink *)

Fixpoint str_concat (l : list string) : string :=
  match l with
  | [] => EmptyString
  | t :: l' => t +:+ str_concat l'
  end.

(** Number of occurrences of a character in a text. *)
Fixpoint count_char (c : ascii) (s : string) : nat :=
  match s with
  | EmptyString => 0
  | String a s' => (if Ascii.eqb a c then 1 else 0) + count_char c s'
  end.

(** The text of a Run as the stream grammar words it: the character
    [chr(0x3F + bitmask)] repeated [count] times when [count < 4], else
    ['!'], the decimal count and the character once. *)
Definition spec_run_text (bitmask : N) (count : nat) : string :=
  let char := str1 (chr (0x3F + bitmask)) in
  if decide (count < 4) then str_concat (replicate count char)
  else "!" +:+ fmt_d count +:+ char.

(** The text of one node and of the nodes of one band. *)
Definition node_text (nd : node_t) : string :=
  "#" +:+ fmt_d nd.1 +:+ str_concat (map run_text nd.2) +:+ "$".

Definition band_text (buf : list node_t) : string :=
  str_concat (map node_text buf).

(** The header as the stream grammar words it. *)
Definition spec_header (self : converter) : string :=
  "7;" +:+ (if chromakey self then "2" else "1") +:+ ";75q"
    +:+ String dquote "1;1;" +:+ fmt_d (width self) +:+ ";"
    +:+ fmt_d (height self).

(** The definition of palette entry [n], for a palette that holds it. *)
Definition color_text (self : converter) (n : nat) : string :=
  let channel (k : nat) := default 0 (palette self !! (n * 3 + k)) in
  "#" +:+ fmt_d n +:+ ";2;" +:+ fmt_d (channel 0 * 100 / 256) +:+ ";"
    +:+ fmt_d (channel 1 * 100 / 256) +:+ ";"
    +:+ fmt_d (channel 2 * 100 / 256).

Definition palette_text (self : converter) : string :=
  str_concat (map (color_text self) (range2 0 (ncolor self))).

(** The nodes of the band that starts at row [y], when encoding it
    returns. *)
Definition band_nodes (self : converter) (raw : option (list rgba))
    (depth y : nat) : list node_t :=
  match encode_band (width self) (data self) raw (alpha_threshold self) y
          (Nat.min 6 (height self - y)) depth with
  | Ok buf => buf
  | Raise _ => []
  end.

(** The band separator written after the band at row [y], if any. *)
Definition band_sep (self : converter) (y : nat) : string :=
  if y + 6 <? height self then "-" else EmptyString.

(** A computation only appends to the sink. *)
Definition appends {A} (m : io A) : Prop :=
  ∀ out, ∃ rest, (m out).2 = out +:+ rest.

(** ** Reference decoder and the orders of emission *)

(** Modelled from the spec: the test-only reference decoder of the
    round-trip check, which is not part of the source.  It overlays the
    nodes of a band in the order of emission; the pixel at column [x],
    sub-row [i] takes the color of the last node whose bitmask has bit [i]
    set there, and stays undefined when no node has. *)
Definition decode_band (buf : list node_t) (x i : nat) : option nat :=
  fold_left (fun acc (nd : node_t) => if bit_at nd x i then Some nd.1 else acc)
            buf None.



(** ** Sample images *)

(** The 2x2 image with pixels [0 1 / 1 0] and two colors. *)
Definition checker : converter :=
  {| f8bit := false; ncolor := 2; alpha_threshold := 0; chromakey := false;
     palette := [0; 0; 0; 255; 255; 255]; data := [0; 1; 1; 0];
     rawdata := []; width := 2; height := 2 |}.

(** A 2x2 image whose top-left pixel is transparent: row 0 is
    [transparent 3], row 1 is [5 3], with [alpha_threshold = 128]. *)
Definition veiled : converter :=
  {| f8bit := false; ncolor := 6; alpha_threshold := 128; chromakey := false;
     palette := replicate 18 0; data := [3; 3; 5; 3];
     rawdata := [(0, 0, 0, 0); (9, 9, 9, 255); (7, 7, 7, 255); (9, 9, 9, 255)];
     width := 2; height := 2 |}.


(** A 2x13 image of three bands, the middle one fully transparent. *)
Definition striped : converter :=
  {| f8bit := true; ncolor := 2; alpha_threshold := 1; chromakey := false;
     palette := [10; 20; 30; 200; 100; 255];
     data := replicate 12 0 ++ replicate 12 1 ++ [1; 0];
     rawdata := replicate 12 (0, 0, 0, 255) ++ replicate 12 (0, 0, 0, 0)
                ++ replicate 2 (0, 0, 0, 255);
     width := 2; height := 13 |}.

(** ** The remaining entry point and further notions *)

(** [getvalue()]: [write] runs on a fresh [StringIO]; its text is returned
    when [write] returns, and when [write] raises the buffer is closed and
    the exception propagates. *)
Definition getvalue (self : converter) (depth : nat) : result string :=
  match write self false depth EmptyString with
  | (Ok _, value) => Ok value
  | (Raise e, _) => Raise e
  end.

(** A computation whose outcome and appended text do not depend on what
    the sink already holds. *)
Definition uniform {A} (m : io A) : Prop :=
  ∃ r rest, ∀ out, m out = (r, out +:+ rest).

(** Every character of a text satisfies [P]. *)
Fixpoint str_all (P : ascii → bool) (s : string) : bool :=
  match s with
  | EmptyString => true
  | String a s' => P a && str_all P s'
  end.

(** Printable ASCII other than the space: codes 33 to 126. *)
Definition printable (a : ascii) : bool :=
  (32 <? nat_of_ascii a) && (nat_of_ascii a <? 127).

(** Whatever a computation appends to the sink, also when it raises,
    consists of characters that satisfy [P]. *)
Definition emits {A} (P : ascii → bool) (m : io A) : Prop :=
  ∀ out r out', m out = (r, out') →
    ∃ rest, out' = out +:+ rest ∧ str_all P rest = true.

(** ** Loops *)

Lemma rbind_ok {A B} (m : result A) (k : A → result B) (b : B) :
  rbind m k = Ok b → ∃ a, m = Ok a ∧ k a = Ok b.
Proof. destruct m as [a|e]; simpl; [eauto | discriminate]. Qed.

(** Invariant rule for a loop that completes: [P pre s] relates the items
    already visited to the loop state. *)
Lemma for_each_inv {A S} (body : A → S → result S) (P : list A → S → Prop)
    (l : list A) (s0 s : S) :
  P [] s0 →
  (∀ pre a suf s1 s2, l = pre ++ a :: suf → P pre s1 → body a s1 = Ok s2 →
     P (pre ++ [a]) s2) →
  for_each body l s0 = Ok s →
  P l s.
Proof.
  revert P s0. induction l as [|a l IH]; intros P s0 H0 Hstep Hrun.
  - simpl in Hrun. by injection Hrun as <-.
  - simpl in Hrun. apply rbind_ok in Hrun as (s1 & Ha & Hrun).
    apply (IH (fun pre => P (a :: pre)) s1); [| |done].
    + apply (Hstep [] a l s0 s1); done.
    + intros pre b suf t1 t2 -> Hp Hb.
      apply (Hstep (a :: pre) b suf t1 t2); done.
Qed.


(** ** Run-length compression *)

Lemma expand_app (r1 r2 : list run_t) :
  expand (r1 ++ r2) = expand r1 ++ expand r2.
Proof. unfold expand. apply flat_map_app. Qed.

Lemma run_total_expand (runs : list run_t) :
  run_total runs = length (expand runs).
Proof.
  induction runs as [|r runs IH]; simpl; [done|].
  rewrite length_app, length_replicate, IH. done.
Qed.

Lemma adj_distinct_snoc (l : list N) (a b : N) :
  adj_distinct (l ++ [a]) → a ≠ b → adj_distinct ((l ++ [a]) ++ [b]).
Proof.
  induction l as [|c l IH]; intros Hl Hab; simpl in *; [done|].
  destruct l as [|d l]; simpl in *.
  - destruct Hl as [Hca _]. done.
  - destruct Hl as [Hcd Hl]. split; [done|]. by apply IH.
Qed.

(** The state of the compression after a non-empty run of pushes. *)
Lemma rle_push_fold (l : list N) (nodes : list run_t) (c : N) (run : nat) :
  Forall (fun r : run_t => r.2 ≠ 0) nodes →
  adj_distinct (nodes.*1 ++ [c]) →
  run ≠ 0 →
  ∃ nodes' c' run',
    fold_left rle_push l (nodes, Some c, run) = (nodes', Some c', run') ∧
    Forall (fun r : run_t => r.2 ≠ 0) nodes' ∧
    adj_distinct (nodes'.*1 ++ [c']) ∧
    run' ≠ 0 ∧
    expand nodes' ++ replicate run' c'
    = expand nodes ++ replicate run c ++ l.
Proof.
  revert nodes c run.
  induction l as [|six l IH]; intros nodes c run Hnz Hadj Hrun.
  - exists nodes, c, run. simpl. by rewrite app_nil_r.
  - simpl. destruct (N.eqb_spec six c) as [->|Hne].
    + destruct (IH nodes c (run + 1)) as (n' & c' & r' & Hf & ? & ? & ? & He);
        [done | done | lia |].
      exists n', c', r'. split_and!; try done.
      rewrite He. f_equal.
      replace (run + 1) with (S run) by lia.
      rewrite replicate_S_end, <- app_assoc. done.
    + destruct (IH (nodes ++ [(c, run)]) six 1)
        as (n' & c' & r' & Hf & ? & ? & ? & He).
      * apply Forall_app. split; [done|]. by constructor.
      * rewrite fmap_app. simpl. apply adj_distinct_snoc; [done | congruence].
      * lia.
      * exists n', c', r'. split_and!; try done.
        rewrite He, expand_app. simpl. rewrite app_nil_r, <- app_assoc. done.
Qed.

(** The Runs left by [rle_close] after pushing the symbols [l] onto the
    initial Runs [nodes0]. *)
Lemma rle_close_fold (nodes0 : list run_t) (l : list N) :
  Forall (fun r : run_t => r.2 ≠ 0) nodes0 →
  adj_distinct nodes0.*1 →
  (∀ a l', l = a :: l' → adj_distinct (nodes0.*1 ++ [a])) →
  expand (rle_close (fold_left rle_push l (nodes0, None, 0)))
  = expand nodes0 ++ l
  ∧ runs_wf (rle_close (fold_left rle_push l (nodes0, None, 0))).
Proof.
  intros Hnz Hadj Hhd. destruct l as [|a l].
  - simpl. rewrite app_nil_r. done.
  - simpl.
    destruct (rle_push_fold l nodes0 a 1)
      as (nodes' & c' & run' & -> & Hnz' & Hadj' & Hrun' & He);
      [done | by eapply Hhd | lia |].
    simpl. destruct (Nat.eqb_spec run' 0) as [?|_]; [done|].
    split.
    + rewrite expand_app. simpl. rewrite app_nil_r. done.
    + split.
      * apply Forall_app. split; [done|]. by constructor.
      * rewrite fmap_app. done.
Qed.

(** ** The bitmask of a column *)

Section BandFacts.
Variable width : nat.
Variable data : list nat.
Variable rawdata : option (list rgba).
Variable alpha_threshold : nat.
Variable y : nat.
Variable band : nat.

Local Abbreviation pix := (pixel_at width data rawdata alpha_threshold y).
Local Abbreviation sixel := (six_of width data rawdata alpha_threshold y band).
Local Abbreviation row :=
  (encode_row width data rawdata alpha_threshold y band).
Local Abbreviation starts :=
  (start_ok width data rawdata alpha_threshold y band).
Local Abbreviation good := (node_ok width data rawdata alpha_threshold y band).
Local Abbreviation fresh_in :=
  (fresh width data rawdata alpha_threshold y band).
Local Abbreviation grows :=
  (extends width data rawdata alpha_threshold y band).
Local Abbreviation seed_at :=
  (seeded width data rawdata alpha_threshold y).
Local Abbreviation post :=
  (add_node_post width data rawdata alpha_threshold y band).

Local Abbreviation six_step color x :=
  (fun (six : N) (i : nat) =>
     match pix x i with
     | Ok d => if d =? color then N.lor six (N.shiftl 1 (N.of_nat i))
               else six
     | Raise _ => six
     end).

Lemma testbit_shiftl_1 (i j : nat) :
  N.testbit (N.shiftl 1 (N.of_nat i)) (N.of_nat j) = bool_decide (i = j).
Proof.
  rewrite N.shiftl_1_l, N.pow2_bits_eqb.
  destruct (N.eqb_spec (N.of_nat i) (N.of_nat j)) as [E|E];
    case_bool_decide; try done; lia.
Qed.

Lemma six_step_testbit (color x : nat) (l : list nat) (acc : N) (j : nat) :
  N.testbit (fold_left (six_step color x) l acc) (N.of_nat j) = true
  ↔ N.testbit acc (N.of_nat j) = true ∨ (j ∈ l ∧ pix x j = Ok color).
Proof.
  revert acc. induction l as [|i l IH]; intros acc; simpl.
  - split; [by left | intros [?|[H _]]; [done | by apply elem_of_nil in H]].
  - rewrite IH. clear IH. rewrite elem_of_cons.
    destruct (pix x i) as [d|e] eqn:Hp.
    + destruct (Nat.eqb_spec d color) as [->|Hne].
      * rewrite N.lor_spec, orb_true_iff, testbit_shiftl_1.
        rewrite bool_decide_eq_true. split.
        -- intros [[?|<-]|[? ?]]; eauto.
        -- intros [?|[[->|?] ?]]; eauto.
      * split; [intros [?|[? ?]]; eauto|].
        intros [?|[[->|?] ?]]; eauto. congruence.
    + split; [intros [?|[? ?]]; eauto|].
      intros [?|[[->|?] ?]]; eauto. congruence.
Qed.

(** Bit [i] of the bitmask of [color] at column [x] is set exactly when
    sub-row [i] is inside the band and its pixel is [color]. *)
Lemma six_of_testbit (color x i : nat) :
  N.testbit (sixel color x) (N.of_nat i) = true
  ↔ i < band ∧ pix x i = Ok color.
Proof.
  unfold six_of. rewrite six_step_testbit. unfold range2.
  rewrite elem_of_seq. simpl. split.
  - intros [H|[? ?]]; [done | split; [lia | done]].
  - intros [? ?]. right. split; [lia | done].
Qed.

Lemma six_step_bound (color x : nat) (l : list nat) (acc : N) (k : nat) :
  (acc < 2 ^ N.of_nat k)%N → (∀ i, i ∈ l → i < k) →
  (fold_left (six_step color x) l acc < 2 ^ N.of_nat k)%N.
Proof.
  revert acc. induction l as [|i l IH]; intros acc Hacc Hl; simpl; [done|].
  apply IH; [| intros j Hj; apply Hl; by right].
  destruct (pix x i) as [d|e]; [|done].
  destruct (d =? color); [|done].
  assert (Hi : i < k) by (apply Hl; left).
  assert (H1 : (N.shiftl 1 (N.of_nat i) < 2 ^ N.of_nat k)%N).
  { rewrite N.shiftl_1_l. apply N.pow_lt_mono_r; [reflexivity | lia]. }
  destruct (N.eq_dec (N.lor acc (N.shiftl 1 (N.of_nat i))) 0) as [->|Hnz].
  { apply N.neq_0_lt_0, N.pow_nonzero. done. }
  apply N.log2_lt_pow2; [lia|].
  rewrite N.log2_lor.
  assert (Hs : (0 < N.shiftl 1 (N.of_nat i))%N).
  { rewrite N.shiftl_1_l. apply N.neq_0_lt_0, N.pow_nonzero. done. }
  apply N.log2_lt_pow2 in H1; [|done].
  destruct (N.eq_dec acc 0) as [->|Ha]; [change (N.log2 0) with 0%N; lia|].
  apply N.log2_lt_pow2 in Hacc; lia.
Qed.

Lemma six_of_lt (color x : nat) : (sixel color x < 2 ^ N.of_nat band)%N.
Proof.
  apply six_step_bound.
  - apply N.neq_0_lt_0, N.pow_nonzero. done.
  - intros i. unfold range2. rewrite elem_of_seq. lia.
Qed.

(** With at most six rows in a band every bitmask fits in six bits. *)
Lemma six_of_lt_64 (color x : nat) : band ≤ 6 → (sixel color x < 64)%N.
Proof.
  intros Hb. eapply N.lt_le_trans; [apply six_of_lt|].
  change 64%N with (2 ^ N.of_nat 6)%N. apply N.pow_le_mono_r; lia.
Qed.
(** ** The Runs of one node *)

Lemma first_nodes_expand (start_x : nat) :
  expand (first_nodes start_x) = replicate start_x 0%N.
Proof.
  unfold first_nodes. destruct (Nat.eqb_spec start_x 0) as [->|?]; [done|].
  simpl. by rewrite app_nil_r.
Qed.

Lemma sixel_start_nonzero (color start_x i : nat) :
  i < band → pix start_x i = Ok color → sixel color start_x ≠ 0%N.
Proof.
  intros Hi Hp Hz.
  assert (Hb : N.testbit (sixel color start_x) (N.of_nat i) = true)
    by (by apply six_of_testbit).
  rewrite Hz, N.bits_0 in Hb. done.
Qed.

Lemma encode_row_facts (color start_x : nat) :
  starts color start_x →
  expand (row color start_x).2
  = replicate start_x 0%N ++ map (sixel color) (range2 start_x width)
  ∧ runs_wf (row color start_x).2.
Proof.
  intros Hst. unfold encode_row. simpl.
  rewrite <- first_nodes_expand. apply rle_close_fold.
  - unfold first_nodes. destruct (Nat.eqb_spec start_x 0); [done|].
    by repeat constructor.
  - unfold first_nodes. by destruct (start_x =? 0).
  - intros a l' Hl. unfold first_nodes.
    destruct (Nat.eqb_spec start_x 0) as [?|Hnz]; [done|]. simpl.
    split; [|done].
    destruct Hst as ([?|Hlt] & i & Hi & Hp); [done|].
    unfold range2 in Hl.
    destruct (width - start_x) as [|n] eqn:Hw; [lia|].
    simpl in Hl. injection Hl as <- _.
    intros Hz. by eapply sixel_start_nonzero.
Qed.

Lemma starts_le (color start_x : nat) : starts color start_x → start_x ≤ width.
Proof. intros [[->|?] _]; lia. Qed.

(** The counts of a well-built node cover the width of the image. *)
Lemma node_ok_total (nd : node_t) : good nd → run_total nd.2 = width.
Proof.
  intros (_ & sx & Hst & Hnd). rewrite Hnd.
  destruct (encode_row_facts nd.1 sx Hst) as [He _].
  rewrite run_total_expand, He, length_app, length_replicate, length_map.
  unfold range2. rewrite length_seq. apply starts_le in Hst. lia.
Qed.

Lemma node_ok_wf (nd : node_t) : good nd → runs_wf nd.2.
Proof.
  intros (_ & sx & Hst & Hnd). rewrite Hnd.
  by destruct (encode_row_facts nd.1 sx Hst).
Qed.

(** The symbol a well-built node holds at a column. *)
Lemma node_ok_lookup (nd : node_t) (x : nat) (six : N) :
  good nd → expand nd.2 !! x = Some six →
  x < width ∧ (six = 0%N ∨ six = sixel nd.1 x).
Proof.
  intros (_ & sx & Hst & Hnd) Hx. rewrite Hnd in Hx.
  destruct (encode_row_facts nd.1 sx Hst) as [He _].
  rewrite He in Hx. clear He. apply starts_le in Hst.
  apply lookup_app_Some in Hx as [Hx|[Hge Hx]].
  - apply lookup_replicate in Hx as [-> ?]. split; [lia | by left].
  - rewrite length_replicate in *. unfold range2 in Hx.
    rewrite list_lookup_fmap in Hx.
    destruct (seq sx (width - sx) !! (x - sx)) as [x'|] eqn:Hs; [|done].
    apply lookup_seq in Hs as [-> ?]. simpl in Hx. injection Hx as <-.
    replace (sx + (x - sx)) with x by lia. split; [lia | by right].
Qed.

(** A bit set in a well-built node marks a pixel of the node's color. *)
Lemma node_ok_bit (nd : node_t) (x i : nat) :
  good nd → bit_at nd x i = true →
  x < width ∧ i < band ∧ pix x i = Ok nd.1.
Proof.
  intros Hok Hb. unfold bit_at in Hb.
  destruct (expand nd.2 !! x) as [six|] eqn:Hx; [|done].
  destruct (node_ok_lookup nd x six Hok Hx) as [Hlt [->| ->]].
  - by rewrite N.bits_0 in Hb.
  - apply six_of_testbit in Hb as [? ?]. done.
Qed.

Lemma node_ok_symbol_bound (nd : node_t) (r : run_t) :
  good nd → r ∈ nd.2 → (r.1 < 2 ^ N.of_nat band)%N.
Proof.
  intros Hok Hr.
  assert (Hnz : r.2 ≠ 0).
  { destruct (node_ok_wf nd Hok) as [Hall _].
    rewrite Forall_forall in Hall. by apply Hall. }
  assert (Hin : r.1 ∈ expand nd.2).
  { unfold expand. apply list_elem_of_In, in_flat_map. exists r.
    split; [by apply list_elem_of_In|]. apply list_elem_of_In.
    destruct (r.2) as [|n]; [done|]. simpl. left. }
  apply list_elem_of_lookup in Hin as [x Hx].
  destruct (node_ok_lookup nd x _ Hok Hx) as [_ [-> | ->]].
  - apply N.neq_0_lt_0, N.pow_nonzero. done.
  - apply six_of_lt.
Qed.

(** ** The shared state while [add_node] runs *)

Lemma extends_refl (sh : shared) : grows sh sh.
Proof.
  split; [done|]. exists []. split; [by rewrite app_nil_r|].
  split_and!; [constructor | | constructor].
  intros c. simpl. split; [by intros ?%elem_of_nil | tauto].
Qed.

Lemma extends_trans (sh1 sh2 sh3 : shared) :
  grows sh1 sh2 → grows sh2 sh3 → grows sh1 sh3.
Proof.
  intros (H12 & new1 & E1 & Hd1 & Hm1 & Hok1)
         (H23 & new2 & E2 & Hd2 & Hm2 & Hok2).
  split; [set_solver|]. exists (new1 ++ new2).
  split; [by rewrite E2, E1, app_assoc|].
  split_and!.
  - rewrite fmap_app. apply NoDup_app. split_and!; [done | | done].
    intros c Hc1 Hc2. apply Hm1 in Hc1. apply Hm2 in Hc2. tauto.
  - intros c. rewrite fmap_app, elem_of_app, Hm1, Hm2.
    destruct (decide (c ∈ sh2.1)); set_solver.
  - by apply Forall_app.
Qed.

(** A returned call leaves the shared state extended, from the point of
    view of a caller that had not yet seen [d]. *)
Lemma post_extends (d x i : nat) (seen : gset nat) (buf : list node_t)
    (sh' : shared) :
  d ≠ BG → d ∉ seen → x < width → i < band → pix x i = Ok d →
  post d x ({[d]} ∪ seen, buf) sh' →
  grows (seen, buf) sh'.
Proof.
  intros Hbg Hd Hx Hi Hp (Hsub & new & E & Hnd & Hm & Hok). simpl in *.
  split; [simpl; set_solver|]. exists (new ++ [row d x]).
  split; [done|]. simpl. split_and!.
  - rewrite fmap_app. apply NoDup_app. split_and!; [done | |].
    + intros c Hc1 Hc2. apply Hm in Hc1. simpl in Hc2.
      apply list_elem_of_singleton in Hc2. set_solver.
    + simpl. apply NoDup_singleton.
  - intros c. rewrite fmap_app, elem_of_app, Hm. simpl.
    rewrite list_elem_of_singleton.
    destruct (decide (c = d)); set_solver.
  - apply Forall_app. split; [done|]. constructor; [|constructor].
    split; [done|]. exists x. split; [|done]. split; [by right | eauto].
Qed.

(** ** The scan of [add_node] *)

Section Scan.
Variable self_call : nat → nat → shared → result shared.
Hypothesis self_call_post :
  ∀ d x sh sh', d ≠ BG → self_call d x sh = Ok sh' → post d x sh sh'.

Lemma scan_pixel_spec (color x i : nat) (sh sh' : shared) (six six' : N) :
  color ≠ BG → x < width → i < band →
  scan_pixel width data rawdata alpha_threshold y self_call color x i
    (sh, six) = Ok (sh', six') →
  grows sh sh' ∧ six' = six_step color x six i.
Proof.
  intros Hcol Hx Hi. destruct sh as [seen buf]. unfold scan_pixel.
  fold (pix x i). intros Hrun.
  apply rbind_ok in Hrun as (d & Hp & Hrun). rewrite Hp.
  destruct (Nat.eqb_spec d BG) as [Hbg|Hbg].
  { injection Hrun as <- <-. split; [apply extends_refl|].
    destruct (Nat.eqb_spec d color); [congruence | done]. }
  destruct (Nat.eqb_spec d color) as [->|Hne].
  { injection Hrun as <- <-. split; [apply extends_refl | done]. }
  destruct (decide (d ∈ seen)) as [Hin|Hnin].
  { injection Hrun as <- <-. split; [apply extends_refl | done]. }
  apply rbind_ok in Hrun as (sh1 & Hcall & Hrun). injection Hrun as <- <-.
  split; [|done].
  eapply post_extends; eauto.
Qed.
Lemma scan_column_spec (color x : nat) (sh sh' : shared)
    (rs rs' : rle_state) :
  color ≠ BG → x < width →
  scan_column width data rawdata alpha_threshold y band self_call color x
    (sh, rs) = Ok (sh', rs') →
  grows sh sh' ∧ rs' = rle_push rs (sixel color x).
Proof.
  intros Hcol Hx Hrun. unfold scan_column in Hrun.
  apply rbind_ok in Hrun as ([sh1 six] & Hloop & Hrun).
  injection Hrun as <- <-.
  apply (for_each_inv _
           (fun pre st => grows sh st.1
                          ∧ st.2 = fold_left (six_step color x) pre 0%N))
    in Hloop.
  - simpl in Hloop. destruct Hloop as [? ->]. done.
  - split; [apply extends_refl | done].
  - intros pre i suf [sh2 six2] [sh3 six3] Hl [Hg Hs] Hstep. simpl in *.
    assert (Hi : i < band).
    { assert (Hin : i ∈ range2 0 band) by (rewrite Hl; set_solver).
      unfold range2 in Hin. apply elem_of_seq in Hin. lia. }
    apply scan_pixel_spec in Hstep as [Hg' ->]; [|done..].
    split; [by eapply extends_trans|].
    rewrite fold_left_app. simpl. by rewrite Hs.
Qed.

Lemma add_node_body_spec (color start_x : nat) (sh sh' : shared) :
  color ≠ BG →
  add_node_body width data rawdata alpha_threshold y band self_call
    color start_x sh = Ok sh' →
  post color start_x sh sh'.
Proof.
  intros Hcol Hrun. unfold add_node_body in Hrun.
  apply rbind_ok in Hrun as ([[seen1 buf1] rs] & Hloop & Hrun).
  injection Hrun as <-.
  apply (for_each_inv _
           (fun pre st =>
              grows sh st.1
              ∧ st.2 = fold_left rle_push (map (sixel color) pre)
                         (first_nodes start_x, None, 0)))
    in Hloop.
  - destruct Hloop as [(Hsub & new & E & Hfresh) Hrs]. simpl in *.
    split; [done|]. exists new. split; [|done].
    rewrite E, <- app_assoc. unfold encode_row. by rewrite Hrs.
  - split; [apply extends_refl | done].
  - intros pre x suf [sh2 rs2] [sh3 rs3] Hl [Hg Hs] Hstep. simpl in *.
    assert (Hx : x < width).
    { assert (Hin : x ∈ range2 start_x width) by (rewrite Hl; set_solver).
      unfold range2 in Hin. apply elem_of_seq in Hin. lia. }
    apply scan_column_spec in Hstep as [Hg' ->]; [|done..].
    split; [by eapply extends_trans|].
    rewrite map_app, fold_left_app. simpl. by rewrite Hs.
Qed.
End Scan.

(** Every call of [add_node] that returns has appended, after the nodes of
    the colors it discovered, the node of its own color. *)
Lemma add_node_spec (depth color start_x : nat) (sh sh' : shared) :
  color ≠ BG →
  add_node width data rawdata alpha_threshold y band depth color start_x sh
  = Ok sh' →
  post color start_x sh sh'.
Proof.
  revert color start_x sh sh'.
  induction depth as [|depth IH]; intros color start_x sh sh' Hcol Hrun.
  - discriminate.
  - simpl in Hrun. eapply add_node_body_spec; [|done|done].
    intros d x sh1 sh2 Hd Hcall. by apply IH.
Qed.

(** ** One band *)

Lemma pix_row0 (x : nat) :
  pix x 0 = get_pixel data rawdata alpha_threshold (y * width + x).
Proof. unfold pixel_at. by rewrite Nat.mul_0_r, Nat.add_0_r. Qed.

(** The seed search stops at the first pixel of the row that is not BG. *)
Lemma scan_first_row_spec (xs : list nat) (found : option (nat * nat)) :
  scan_first_row width data rawdata alpha_threshold y xs = Ok found →
  match found with
  | Some (d, x) =>
      d ≠ BG ∧ pix x 0 = Ok d ∧
      ∃ pre suf, xs = pre ++ x :: suf ∧ ∀ x', x' ∈ pre → pix x' 0 = Ok BG
  | None => ∀ x', x' ∈ xs → pix x' 0 = Ok BG
  end.
Proof.
  revert found. induction xs as [|x xs IH]; intros found Hrun; simpl in Hrun.
  - injection Hrun as <-. by intros x' ?%elem_of_nil.
  - apply rbind_ok in Hrun as (d & Hp & Hrun). rewrite <- pix_row0 in Hp.
    destruct (Nat.eqb_spec d BG) as [->|Hne].
    + apply IH in Hrun. destruct found as [[d' x0]|].
      * destruct Hrun as (? & ? & pre & suf & -> & Hpre).
        split_and!; [done..|]. exists (x :: pre), suf. split; [done|].
        intros x' [->|?]%elem_of_cons; auto.
      * intros x' [->|?]%elem_of_cons; auto.
    + injection Hrun as <-. split_and!; [done..|].
      exists [], xs. split; [done|]. by intros x' ?%elem_of_nil.
Qed.

(** The nodes of a band: none when no seed is found; otherwise one node
    per color that was reached, all well built, the seed's node last. *)
Lemma encode_band_spec (depth : nat) (buf : list node_t) :
  0 < band →
  encode_band width data rawdata alpha_threshold y band depth = Ok buf →
  NoDup buf.*1 ∧ Forall good buf ∧
  (buf = [] ∨ ∃ new seed x0, buf = new ++ [row seed x0] ∧ seed_at seed x0).
Proof.
  intros Hband Hrun. unfold encode_band in Hrun.
  apply rbind_ok in Hrun as (first & Hfirst & Hrun).
  rewrite <- (Nat.add_0_r (y * width)), <- pix_row0 in Hfirst.
  assert (Hroot : ∀ seed x0 seen' buf',
    seed_at seed x0 →
    add_node width data rawdata alpha_threshold y band depth seed x0
      ({[seed]}, []) = Ok (seen', buf') →
    NoDup buf'.*1 ∧ Forall good buf' ∧
    (buf' = [] ∨
     ∃ new seed x0, buf' = new ++ [row seed x0] ∧ seed_at seed x0)).
  { intros seed x0 seen' buf' Hseed Hadd.
    pose proof Hseed as (Hbg & Hp & Hx0 & Hpre).
    apply add_node_spec in Hadd as (Hsub & new & E & Hnd & Hm & Hok);
      [|done]. simpl in *. subst buf'.
    split_and!.
    - rewrite fmap_app. apply NoDup_app. split_and!; [done | |].
      + intros c Hc1 Hc2. apply Hm in Hc1. simpl in Hc2.
        apply list_elem_of_singleton in Hc2. set_solver.
      + simpl. apply NoDup_singleton.
    - apply Forall_app. split; [done|]. constructor; [|constructor].
      split; [done|]. exists x0. split; [|done]. split; [done | eauto].
    - right. eauto. }
  destruct (Nat.eqb_spec first BG) as [->|Hne]; simpl in Hrun.
  - apply rbind_ok in Hrun as (found & Hscan & Hrun).
    apply scan_first_row_spec in Hscan.
    destruct found as [[d x0]|].
    + destruct Hscan as (Hd & Hp & pre & suf & Hl & Hpre).
      apply rbind_ok in Hrun as ([seen' buf'] & Hadd & Hrun).
      injection Hrun as <-. eapply Hroot; [|done].
      assert (Hseq : pre = seq 0 x0 ∧ x0 < width).
      { unfold range2 in Hl.
        assert (Hx : seq 0 (width - 0) !! length pre = Some x0)
          by (by rewrite Hl, list_lookup_middle).
        apply lookup_seq in Hx as [Hx Hlt]. simpl in Hx. subst x0.
        split; [|lia].
        apply (f_equal (take (length pre))) in Hl.
        rewrite take_app_length, take_seq, Nat.min_l in Hl by lia. done. }
      destruct Hseq as [-> Hlt]. split_and!; [done | done | by right |].
      intros x Hx. apply Hpre, elem_of_seq. lia.
    + injection Hrun as <-. split_and!; [constructor | constructor | by left].
  - apply rbind_ok in Hrun as ([seen' buf'] & Hadd & Hrun).
    injection Hrun as <-. eapply Hroot; [|done].
    split_and!; [done | done | by left | lia].
Qed.

(** ** Termination: the nesting of [add_node] is bounded by the colors *)


Section Total.
(** Every pixel of the band can be read. *)
Hypothesis readable : ∀ x i, x < width → i < band → ∃ d, pix x i = Ok d.

Local Abbreviation colors := (list_to_set data : gset nat).
Local Abbreviation unseen seen := (size (colors ∖ seen)).



Section Body.
Variable self_call : nat → nat → shared → result shared.
Variable depth : nat.
Hypothesis self_call_total :
  ∀ d x seen buf, unseen seen < depth →
    ∃ sh', self_call d x (seen, buf) = Ok sh' ∧ seen ⊆ sh'.1.



End Body.



End Total.

(** ** Coverage: a scan reaches every color from the column of the seed
    on *)

Lemma sixel_zero (color x : nat) :
  (∀ i, i < band → pix x i ≠ Ok color) → sixel color x = 0%N.
Proof.
  intros Hno. apply N.bits_inj_0. intros n.
  destruct (N.testbit (sixel color x) n) eqn:Hb; [|done].
  rewrite <- (N2Nat.id n) in Hb. apply six_of_testbit in Hb as [Hi Hp].
  by destruct (Hno _ Hi).
Qed.

Section Coverage.
(** The column of the seed: nothing left of it is looked at. *)
Variable lo : nat.

Local Abbreviation knows :=
  (known width data rawdata alpha_threshold y band lo).
Local Abbreviation full :=
  (node_full width data rawdata alpha_threshold y band lo).
Local Abbreviation covered :=
  (covers width data rawdata alpha_threshold y band lo).

Lemma encode_row_full (color start_x : nat) :
  starts color start_x →
  (∀ x, lo ≤ x → x < start_x → sixel color x = 0%N) →
  full (row color start_x).
Proof.
  intros Hst Hzero x Hlo Hx.
  destruct (encode_row_facts color start_x Hst) as [-> _]. simpl.
  destruct (decide (x < start_x)) as [Hlt|Hge].
  - rewrite lookup_app_l by (rewrite length_replicate; lia).
    rewrite lookup_replicate_2 by lia. by rewrite Hzero.
  - rewrite lookup_app_r by (rewrite length_replicate; lia).
    rewrite length_replicate. unfold range2.
    rewrite list_lookup_fmap, lookup_seq_lt by lia. simpl.
    do 2 f_equal. lia.
Qed.

Lemma covers_refl (sh : shared) : covered sh sh.
Proof. split; [done|]. exists []. by rewrite app_nil_r. Qed.

Lemma covers_trans (sh1 sh2 sh3 : shared) :
  covered sh1 sh2 → covered sh2 sh3 → covered sh1 sh3.
Proof.
  intros (H12 & new1 & E1 & Hf1) (H23 & new2 & E2 & Hf2).
  split; [set_solver|]. exists (new1 ++ new2).
  split; [by rewrite E2, E1, app_assoc | by apply Forall_app].
Qed.

Lemma known_mono (seen seen' : gset nat) (x j x2 j2 : nat) :
  seen ⊆ seen' → x2 < x ∨ (x2 = x ∧ j2 ≤ j) →
  knows seen x j → knows seen' x2 j2.
Proof.
  intros Hsub Hle Hk x' i c Hi Hlo Hpos Hp Hc.
  apply Hsub, (Hk x' i c); [done | done | lia | done | done].
Qed.

Section Cover.
Variable self_call : nat → nat → shared → result shared.
Hypothesis self_call_post :
  ∀ d x sh sh', d ≠ BG → self_call d x sh = Ok sh' → post d x sh sh'.
Hypothesis self_call_cover :
  ∀ d x sh sh',
    d ≠ BG → d ∈ sh.1 → starts d x → lo ≤ x → x ≤ width →
    (∀ x', lo ≤ x' → x' < x → sixel d x' = 0%N) →
    knows sh.1 x 0 →
    self_call d x sh = Ok sh' →
    covered sh sh' ∧ knows sh'.1 width 0.

Lemma scan_pixel_cover (color x i : nat) (sh sh' : shared) (six six' : N) :
  color ∈ sh.1 → lo ≤ x → x < width → i < band → knows sh.1 x i →
  scan_pixel width data rawdata alpha_threshold y self_call color x i
    (sh, six) = Ok (sh', six') →
  covered sh sh' ∧ knows sh'.1 x (S i).
Proof.
  intros Hcol Hlo Hx Hi Hk. destruct sh as [seen buf]. unfold scan_pixel.
  fold (pix x i). intros Hrun. simpl in *.
  apply rbind_ok in Hrun as (d & Hp & Hrun).
  assert (Hstay : d = BG ∨ d ∈ seen → knows seen x (S i)).
  { intros Hd x' i' c Hi' Hlo' Hpos Hp' Hc.
    destruct (decide (x' = x ∧ i' = i)) as [[-> ->]|Hne].
    - rewrite Hp in Hp'. injection Hp' as <-. by destruct Hd.
    - apply (Hk x' i' c); [done | done | lia | done | done]. }
  destruct (Nat.eqb_spec d BG) as [Hbg|Hbg].
  { injection Hrun as <- <-. split; [apply covers_refl | auto]. }
  destruct (Nat.eqb_spec d color) as [->|Hne].
  { injection Hrun as <- <-. split; [apply covers_refl | auto]. }
  destruct (decide (d ∈ seen)) as [Hin|Hnin].
  { injection Hrun as <- <-. split; [apply covers_refl | auto]. }
  apply rbind_ok in Hrun as (sh1 & Hcall & Hrun). injection Hrun as <- <-.
  assert (Hzero : ∀ x', lo ≤ x' → x' < x → sixel d x' = 0%N).
  { intros x' Hlo' Hx'. apply sixel_zero. intros i' Hi' Hp'.
    apply Hnin, (Hk x' i' d); [done | done | lia | done | done]. }
  assert (Hk0 : knows ({[d]} ∪ seen) x 0).
  { apply (known_mono seen _ x i); [set_solver | lia | done]. }
  destruct (self_call_cover d x ({[d]} ∪ seen, buf) sh1)
    as [(Hsub & new & E & Hfull) Hk1];
    [done | simpl; set_solver | split; [by right | eauto] | done | lia
    | done | done | done |].
  simpl in *. split.
  - split; [simpl; set_solver|]. by exists new.
  - apply (known_mono sh1.1 sh1.1 width 0); [done | lia | done].
Qed.

Lemma scan_column_cover (color x : nat) (sh sh' : shared)
    (rs rs' : rle_state) :
  color ∈ sh.1 → lo ≤ x → x < width → knows sh.1 x 0 →
  scan_column width data rawdata alpha_threshold y band self_call color x
    (sh, rs) = Ok (sh', rs') →
  covered sh sh' ∧ knows sh'.1 (S x) 0.
Proof.
  intros Hcol Hlo Hx Hk Hrun. unfold scan_column in Hrun.
  apply rbind_ok in Hrun as ([sh1 six] & Hloop & Hrun).
  injection Hrun as <- _.
  apply (for_each_inv _
           (fun pre st => covered sh st.1 ∧ knows st.1.1 x (length pre)))
    in Hloop.
  - simpl in Hloop. destruct Hloop as [Hc Hk1]. split; [done|].
    unfold range2 in Hk1. rewrite length_seq, Nat.sub_0_r in Hk1.
    intros x' i c Hi Hlo' Hpos. apply (Hk1 x' i c); [done | done | lia].
  - split; [apply covers_refl | done].
  - intros pre i suf [sh2 six2] [sh3 six3] Hl [Hc Hk2] Hstep. simpl in *.
    assert (Hi : i = length pre ∧ i < band).
    { assert (Hs : range2 0 band !! length pre = Some i)
        by (by rewrite Hl, list_lookup_middle).
      unfold range2 in Hs. apply lookup_seq in Hs. lia. }
    destruct Hi as [-> Hi].
    apply scan_pixel_cover in Hstep as [Hc' Hk3]; [|by apply Hc|done..].
    split; [by eapply covers_trans|].
    by rewrite length_app, Nat.add_1_r.
Qed.

Lemma add_node_body_cover (color start_x : nat) (sh sh' : shared) :
  color ≠ BG → color ∈ sh.1 → starts color start_x →
  lo ≤ start_x → start_x ≤ width →
  (∀ x, lo ≤ x → x < start_x → sixel color x = 0%N) →
  knows sh.1 start_x 0 →
  add_node_body width data rawdata alpha_threshold y band self_call
    color start_x sh = Ok sh' →
  covered sh sh' ∧ knows sh'.1 width 0.
Proof.
  intros Hbg Hcol Hst Hlo Hle Hzero Hk Hrun.
  pose proof (add_node_body_spec self_call self_call_post _ _ _ _ Hbg Hrun)
    as (_ & new0 & E0 & _).
  unfold add_node_body in Hrun.
  apply rbind_ok in Hrun as ([[seen1 buf1] rs] & Hloop & Hrun).
  injection Hrun as <-. simpl in E0.
  apply (for_each_inv _
           (fun pre st =>
              covered sh st.1 ∧ knows st.1.1 (start_x + length pre) 0))
    in Hloop.
  - simpl in Hloop. destruct Hloop as ((Hsub & new & E & Hfull) & Hk1).
    simpl in *. unfold range2 in Hk1. rewrite length_seq in Hk1.
    replace (start_x + (width - start_x)) with width in Hk1 by lia.
    split; [|done]. split; [done|].
    rewrite E, <- app_assoc in E0. apply app_inv_head in E0.
    exists (new ++ [row color start_x]). simpl.
    split.
    + rewrite E, <- app_assoc. f_equal.
      apply app_inj_tail in E0 as [_ ->]. done.
    + apply Forall_app. split; [done|]. constructor; [|constructor].
      by apply encode_row_full.
  - simpl. rewrite Nat.add_0_r. split; [apply covers_refl | done].
  - intros pre x suf [sh2 rs2] [sh3 rs3] Hl (Hc & Hk2) Hstep.
    simpl in *.
    assert (Hx : x = start_x + length pre ∧ x < width).
    { assert (Hs : range2 start_x width !! length pre = Some x)
        by (by rewrite Hl, list_lookup_middle).
      unfold range2 in Hs. apply lookup_seq in Hs. lia. }
    destruct Hx as [Hx Hlt]. rewrite <- Hx in Hk2.
    apply scan_column_cover in Hstep as [Hc' Hk3];
      [|by apply Hc|lia|done..].
    split; [by eapply covers_trans|].
    by rewrite length_app, Nat.add_1_r, Nat.add_succ_r, <- Hx.
Qed.
End Cover.

Lemma add_node_cover (depth color start_x : nat) (sh sh' : shared) :
  color ≠ BG → color ∈ sh.1 → starts color start_x →
  lo ≤ start_x → start_x ≤ width →
  (∀ x, lo ≤ x → x < start_x → sixel color x = 0%N) →
  knows sh.1 start_x 0 →
  add_node width data rawdata alpha_threshold y band depth color start_x sh
  = Ok sh' →
  covered sh sh' ∧ knows sh'.1 width 0.
Proof.
  revert color start_x sh sh'.
  induction depth as [|depth IH];
    intros color start_x sh sh' Hbg Hcol Hst Hlo Hle Hzero Hk Hrun.
  - discriminate.
  - simpl in Hrun.
    eapply (add_node_body_cover (add_node width data rawdata
                                   alpha_threshold y band depth));
      [ | exact IH | done..].
    intros d x sh1 sh2 Hd Hcall. by eapply add_node_spec.
Qed.
End Coverage.

(** The call for the seed covers every visible pixel from the seed's
    column on. *)
Lemma root_covers (depth seed x0 : nat) (seen' : gset nat)
    (buf : list node_t) :
  seed ≠ BG → starts seed x0 →
  add_node width data rawdata alpha_threshold y band depth seed x0
    ({[seed]}, []) = Ok (seen', buf) →
  Forall (node_full width data rawdata alpha_threshold y band x0) buf
  ∧ ∀ x i c, x0 ≤ x → x < width → i < band → pix x i = Ok c → c ≠ BG →
      c ∈ buf.*1.
Proof.
  intros Hbg Hst Hadd.
  pose proof (add_node_spec _ _ _ _ _ Hbg Hadd)
    as (_ & new0 & E0 & _ & Hm & _).
  apply (add_node_cover x0) in Hadd as [(_ & new & E & Hfull) Hk];
    [|done | set_solver | done | lia | by eapply starts_le
     | intros x ??; lia |].
  - simpl in *. subst buf. split; [done|].
    intros x i c Hlo Hx Hi Hp Hc.
    assert (Hin : c ∈ seen') by (apply (Hk x i c); auto).
    rewrite E0, fmap_app, elem_of_app. simpl.
    rewrite list_elem_of_singleton, Hm.
    destruct (decide (c = seed)); set_solver.
  - intros x i c _ Hlo Hpos. lia.
Qed.

(** The two ways in which a band is encoded: no seed and no node, or the
    call of [add_node] for the seed. *)
Lemma encode_band_root (depth : nat) (buf : list node_t) :
  0 < band →
  encode_band width data rawdata alpha_threshold y band depth = Ok buf →
  (buf = [] ∧ ∀ seed x0, ¬ seed_at seed x0)
  ∨ ∃ seed x0 seen',
      seed_at seed x0
      ∧ add_node width data rawdata alpha_threshold y band depth seed x0
          ({[seed]}, []) = Ok (seen', buf).
Proof.
  intros Hband Hrun. unfold encode_band in Hrun.
  apply rbind_ok in Hrun as (first & Hfirst & Hrun).
  rewrite <- (Nat.add_0_r (y * width)), <- pix_row0 in Hfirst.
  destruct (Nat.eqb_spec first BG) as [->|Hne]; simpl in Hrun.
  - apply rbind_ok in Hrun as (found & Hscan & Hrun).
    apply scan_first_row_spec in Hscan.
    destruct found as [[d x0]|].
    + destruct Hscan as (Hd & Hp & pre & suf & Hl & Hpre).
      apply rbind_ok in Hrun as ([seen' buf'] & Hadd & Hrun).
      injection Hrun as <-. right. exists d, x0, seen'. split; [|done].
      assert (Hseq : pre = seq 0 x0 ∧ x0 < width).
      { unfold range2 in Hl.
        assert (Hx : seq 0 (width - 0) !! length pre = Some x0)
          by (by rewrite Hl, list_lookup_middle).
        apply lookup_seq in Hx as [Hx Hlt]. simpl in Hx. subst x0.
        split; [|lia].
        apply (f_equal (take (length pre))) in Hl.
        rewrite take_app_length, take_seq, Nat.min_l in Hl by lia. done. }
      destruct Hseq as [-> Hlt]. split_and!; [done | done | by right |].
      intros x Hx. apply Hpre, elem_of_seq. lia.
    + injection Hrun as <-. left. split; [done|].
      intros seed x0 (Hbg & Hp & [->|Hx0] & _).
      * congruence.
      * rewrite Hscan in Hp; [congruence|].
        unfold range2. apply elem_of_seq. lia.
  - apply rbind_ok in Hrun as ([seen' buf'] & Hadd & Hrun).
    injection Hrun as <-. right. exists first, 0, seen'. split; [|done].
    split_and!; [done | done | by left | lia].
Qed.

Lemma seeded_unique (seed1 x1 seed2 x2 : nat) :
  seed_at seed1 x1 → seed_at seed2 x2 → seed1 = seed2 ∧ x1 = x2.
Proof.
  intros (Hb1 & Hp1 & _ & Hpre1) (Hb2 & Hp2 & _ & Hpre2).
  assert (x1 = x2) as ->.
  { destruct (Nat.lt_trichotomy x1 x2) as [Hlt|[?|Hlt]]; [|done|].
    - specialize (Hpre2 _ Hlt). congruence.
    - specialize (Hpre1 _ Hlt). congruence. }
  split; [congruence | done].
Qed.

Lemma seeded_starts (seed x0 : nat) :
  0 < band → seed_at seed x0 → starts seed x0.
Proof. intros Hband (_ & Hp & Hx0 & _). split; [done | eauto]. Qed.

(** From the column of the seed on, every node is full and every visible
    color has a node. *)
Lemma encode_band_covers_from_seed (depth seed x0 : nat)
    (buf : list node_t) :
  0 < band →
  seed_at seed x0 →
  encode_band width data rawdata alpha_threshold y band depth = Ok buf →
  Forall (node_full width data rawdata alpha_threshold y band x0) buf
  ∧ ∀ x i c, x0 ≤ x → x < width → i < band → pix x i = Ok c → c ≠ BG →
      c ∈ buf.*1.
Proof.
  intros Hband Hseed Hrun.
  destruct (encode_band_root depth buf Hband Hrun)
    as [[_ Hno]|(seed' & x0' & seen' & Hseed' & Hadd)].
  - by destruct (Hno seed x0).
  - destruct (seeded_unique _ _ _ _ Hseed Hseed') as [<- <-].
    eapply root_covers; [|by apply seeded_starts|exact Hadd].
    by destruct Hseed.
Qed.

(** When the first pixel of the band is visible, every node is full and
    every visible color of the band has a node. *)
Lemma encode_band_covers (depth first : nat) (buf : list node_t) :
  0 < band →
  get_pixel data rawdata alpha_threshold (y * width) = Ok first →
  first ≠ BG →
  encode_band width data rawdata alpha_threshold y band depth = Ok buf →
  Forall (node_full width data rawdata alpha_threshold y band 0) buf
  ∧ ∀ x i c, x < width → i < band → pix x i = Ok c → c ≠ BG → c ∈ buf.*1.
Proof.
  intros Hband Hfirst Hbg Hrun.
  assert (Hseed : seed_at first 0).
  { split_and!; [done | | by left | lia].
    by rewrite pix_row0, Nat.add_0_r. }
  destruct (encode_band_covers_from_seed depth first 0 buf Hband Hseed Hrun)
    as [Hfull Hcov].
  split; [done|]. intros x i c Hx. apply Hcov; lia.
Qed.

End BandFacts.

(** ** Properties of the nodes of a band *)

Section BandClaims.
Variable width : nat.
Variable data : list nat.
Variable rawdata : option (list rgba).
Variable alpha_threshold : nat.
Variable y : nat.
Variable band : nat.
Variable depth : nat.
Variable buf : list node_t.
Hypothesis band_pos : 0 < band.
Hypothesis encoded :
  encode_band width data rawdata alpha_threshold y band depth = Ok buf.

Lemma encoded_node_ok (n : nat) (nd : node_t) :
  buf !! n = Some nd →
  node_ok width data rawdata alpha_threshold y band nd.
Proof.
  intros Hn. destruct (encode_band_spec _ _ _ _ _ _ _ _ band_pos encoded)
    as (_ & Hall & _).
  rewrite Forall_forall in Hall. apply Hall. by eapply list_elem_of_lookup_2.
Qed.



(** C5: the repeat counts of every node emitted for a band sum to the
    width of the image, the leading empty Run included. *)
Theorem run_counts_sum_to_width (n : nat) (nd : node_t) :
  buf !! n = Some nd → run_total nd.2 = width.
Proof.
  intros Hn. eapply node_ok_total. by eapply encoded_node_ok.
Qed.

(** C6: in every node emitted for a band no Run has a repeat count of
    zero and no two adjacent Runs carry the same bitmask. *)
Theorem runs_maximal_and_nonempty (n : nat) (nd : node_t) :
  buf !! n = Some nd →
  Forall (fun r : run_t => r.2 ≠ 0) nd.2 ∧ adj_distinct nd.2.*1.
Proof.
  intros Hn. eapply node_ok_wf. by eapply encoded_node_ok.
Qed.

End BandClaims.


Lemma run_counts_sum_to_width_witness :
  0 < 2
  ∧ encode_band 2 [0; 1; 1; 0] None 0 0 2 10
    = Ok [(1, [(2%N, 1); (1%N, 1)]); (0, [(1%N, 1); (2%N, 1)])]
  ∧ run_total [(1%N, 1); (2%N, 1)] = 2.
Proof.
  assert (H0 : 0 < 2) by lia.
  assert (H1 : encode_band 2 [0; 1; 1; 0] None 0 0 2 10
               = Ok [(1, [(2%N, 1); (1%N, 1)]); (0, [(1%N, 1); (2%N, 1)])])
    by (vm_compute; reflexivity).
  split; [exact H0|]. split; [exact H1|].
  apply (run_counts_sum_to_width 2 [0; 1; 1; 0] None 0 0 2 10 _ H0 H1
           1 (0, [(1%N, 1); (2%N, 1)])).
  reflexivity.
Defined.

Lemma runs_maximal_and_nonempty_witness :
  0 < 2
  ∧ encode_band 3 [7; 7; 7; 7; 4; 7] (Some (replicate 6 (0, 0, 0, 255))) 1
      0 2 10
    = Ok [(4, [(0%N, 1); (2%N, 1); (0%N, 1)]);
          (7, [(3%N, 1); (1%N, 1); (3%N, 1)])]
  ∧ Forall (fun r : run_t => r.2 ≠ 0) [(0%N, 1); (2%N, 1); (0%N, 1)]
  ∧ adj_distinct [(0%N, 1); (2%N, 1); (0%N, 1)].*1.
Proof.
  assert (H0 : 0 < 2) by lia.
  assert (H1 : encode_band 3 [7; 7; 7; 7; 4; 7]
                 (Some (replicate 6 (0, 0, 0, 255))) 1 0 2 10
               = Ok [(4, [(0%N, 1); (2%N, 1); (0%N, 1)]);
                     (7, [(3%N, 1); (1%N, 1); (3%N, 1)])])
    by (vm_compute; reflexivity).
  split; [exact H0|]. split; [exact H1|].
  apply (runs_maximal_and_nonempty 3 [7; 7; 7; 7; 4; 7]
           (Some (replicate 6 (0, 0, 0, 255))) 1 0 2 10 _ H0 H1
           0 (4, [(0%N, 1); (2%N, 1); (0%N, 1)])).
  reflexivity.
Defined.

(** ** Order of the nodes of a band *)




(** ** Bands whose first pixel is visible *)

Lemma decode_band_fold (buf : list node_t) (x i c : nat) (acc : option nat) :
  (∀ nd, nd ∈ buf → bit_at nd x i = true → nd.1 = c) →
  acc = Some c ∨ (∃ nd, nd ∈ buf ∧ bit_at nd x i = true) →
  fold_left (fun acc (nd : node_t) => if bit_at nd x i then Some nd.1 else acc)
            buf acc = Some c.
Proof.
  revert acc. induction buf as [|nd buf IH]; intros acc Hall Hsome; simpl.
  - destruct Hsome as [?|(nd & Hin & _)]; [done|]. by apply elem_of_nil in Hin.
  - apply IH; [intros nd' ?; apply Hall; by right|].
    destruct (bit_at nd x i) eqn:Hb.
    + left. f_equal. apply Hall; [left | done].
    + destruct Hsome as [?|(nd' & Hin & Hb')]; [by left|].
      apply elem_of_cons in Hin as [->|Hin]; [congruence|]. right. eauto.
Qed.

Section FirstPixelVisible.
Variable width : nat.
Variable data : list nat.
Variable rawdata : option (list rgba).
Variable alpha_threshold : nat.
Variable y : nat.
Variable band : nat.
Variable depth : nat.
Variable first : nat.
Variable buf : list node_t.
Hypothesis band_pos : 0 < band.
Hypothesis first_read :
  get_pixel data rawdata alpha_threshold (y * width) = Ok first.
Hypothesis first_visible : first ≠ BG.
Hypothesis encoded :
  encode_band width data rawdata alpha_threshold y band depth = Ok buf.

(** Decoding the nodes of such a band gives back every visible pixel. *)
Lemma roundtrip_when_first_pixel_visible (x i c : nat) :
  x < width → i < band →
  pixel_at width data rawdata alpha_threshold y x i = Ok c → c ≠ BG →
  decode_band buf x i = Some c.
Proof.
  intros Hx Hi Hp Hc.
  destruct (encode_band_covers _ _ _ _ _ _ _ _ _ band_pos first_read
              first_visible encoded) as [Hfull Hcov].
  destruct (encode_band_spec _ _ _ _ _ _ _ _ band_pos encoded)
    as (_ & Hok & _).
  rewrite Forall_forall in Hfull, Hok.
  apply decode_band_fold.
  - intros nd Hin Hb.
    apply (node_ok_bit _ _ _ _ _ _ _ _ _ (Hok nd Hin)) in Hb as (_ & _ & Hp').
    congruence.
  - right. specialize (Hcov x i c Hx Hi Hp Hc).
    apply list_elem_of_fmap in Hcov as (nd & -> & Hin).
    exists nd. split; [done|]. unfold bit_at.
    rewrite (Hfull nd Hin x) by lia.
    by apply six_of_testbit.
Qed.

(** The nodes of such a band are one per visible color. *)
Lemma one_node_per_color_when_first_pixel_visible :
  0 < width →
  NoDup buf.*1
  ∧ ∀ c, c ∈ buf.*1
         ↔ c ≠ BG ∧ ∃ x i, x < width ∧ i < band
             ∧ pixel_at width data rawdata alpha_threshold y x i = Ok c.
Proof.
  intros Hw.
  destruct (encode_band_covers _ _ _ _ _ _ _ _ _ band_pos first_read
              first_visible encoded) as [_ Hcov].
  destruct (encode_band_spec _ _ _ _ _ _ _ _ band_pos encoded)
    as (Hnd & Hok & _).
  split; [done|]. intros c. split.
  - intros (nd & -> & Hin)%list_elem_of_fmap.
    rewrite Forall_forall in Hok.
    destruct (Hok nd Hin) as (Hbg & sx & (Hsx & i & Hi & Hp) & _).
    split; [done|]. exists sx, i. split_and!; [lia | done | done].
  - intros (Hbg & x & i & Hx & Hi & Hp). by eapply Hcov.
Qed.
End FirstPixelVisible.

(** ** Pixels under a transparent start of the first row *)

(** C1, at the image [veiled]: the first row starts with a transparent
    pixel, so the scan is seeded at column 1 with color 3 and never reads
    column 0 of the second row.  The pixel there is visible with color 5,
    but decoding the emitted nodes leaves it undefined. *)
Theorem veiled_pixel_not_reproduced :
  encode_band 2 [3; 3; 5; 3] (Some (rawdata veiled)) 128 0 2 10
  = Ok [(3, [(0%N, 1); (3%N, 1)])]
  ∧ pixel_at 2 [3; 3; 5; 3] (Some (rawdata veiled)) 128 0 0 1 = Ok 5
  ∧ 5 ≠ BG
  ∧ decode_band [(3, [(0%N, 1); (3%N, 1)])] 0 1 = None.
Proof. split_and!; [vm_compute; reflexivity | reflexivity | discriminate | reflexivity]. Qed.

(** C2, at the image [veiled]: color 5 has a visible pixel in the band,
    at column 0 of the second row, and no node is emitted for it. *)
Theorem veiled_color_has_no_node :
  ∃ buf,
    encode_band 2 [3; 3; 5; 3] (Some (rawdata veiled)) 128 0 2 10 = Ok buf
    ∧ pixel_at 2 [3; 3; 5; 3] (Some (rawdata veiled)) 128 0 0 1 = Ok 5
    ∧ 5 ≠ BG
    ∧ buf.*1 = [3].
Proof.
  exists [(3, [(0%N, 1); (3%N, 1)])].
  split_and!; [vm_compute; reflexivity | reflexivity | discriminate | reflexivity].
Qed.

(** ** Text and the sink *)

Lemma str_app_cons (a : ascii) (s t : string) :
  String a s +:+ t = String a (s +:+ t).
Proof. reflexivity. Qed.

Lemma str_app_nil_r (s : string) : s +:+ EmptyString = s.
Proof.
  induction s as [|a s IH]; [done|]. by rewrite str_app_cons, IH.
Qed.

Lemma str_app_assoc (s t u : string) : (s +:+ t) +:+ u = s +:+ t +:+ u.
Proof.
  induction s as [|a s IH]; [done|]. by rewrite !str_app_cons, IH.
Qed.

Lemma str_mul_concat (ch : ascii) (count : nat) :
  str_mul ch count = str_concat (replicate count (str1 ch)).
Proof. induction count as [|n IH]; simpl; [done|]. by rewrite IH. Qed.

(** A loop of writes that cannot raise appends the texts in order. *)
Lemma io_for_write {A} (text : A → string) (l : list A) (out : string) :
  io_for (fun a => write_str (text a)) l out
  = (Ok tt, out +:+ str_concat (map text l)).
Proof.
  revert out. induction l as [|a l IH]; intros out; simpl.
  - unfold io_ret. by rewrite str_app_nil_r.
  - unfold io_bind, write_str. rewrite IH, str_app_assoc. done.
Qed.

Lemma run_text_spec (r : run_t) : run_text r = spec_run_text r.1 r.2.
Proof.
  destruct r as [six count]. unfold run_text, spec_run_text. simpl.
  destruct (Nat.ltb_spec count 4); case_decide; try lia; [|done].
  apply str_mul_concat.
Qed.

Lemma write_node_out (nd : node_t) (out : string) :
  write_node nd out = (Ok tt, out +:+ node_text nd).
Proof.
  destruct nd as [color nodes]. unfold write_node, node_text, io_bind.
  unfold write_str at 1. rewrite io_for_write. unfold write_str. simpl.
  by rewrite !str_app_assoc.
Qed.

Lemma write_nodes_out (buf : list node_t) (out : string) :
  io_for write_node buf out = (Ok tt, out +:+ band_text buf).
Proof.
  revert out. induction buf as [|nd buf IH]; intros out; simpl.
  - unfold io_ret, band_text. simpl. by rewrite str_app_nil_r.
  - unfold io_bind. rewrite write_node_out, IH. unfold band_text. simpl.
    by rewrite str_app_assoc.
Qed.

(** C7: the text written for a node is ['#'] and the color, then for each
    Run the character [chr(0x3F + bitmask)] repeated [count] times when
    [count < 4] and ['!'], the decimal count and that character once when
    [count >= 4], then ['$']. *)
Theorem run_text_repeat_compression (color : nat) (nodes : list run_t)
    (out : string) :
  write_node (color, nodes) out
  = (Ok tt,
     out +:+ "#" +:+ fmt_d color
       +:+ str_concat (map (fun r : run_t => spec_run_text r.1 r.2) nodes)
       +:+ "$").
Proof.
  rewrite write_node_out. unfold node_text. simpl.
  assert (map run_text nodes
          = map (fun r : run_t => spec_run_text r.1 r.2) nodes) as ->; [|done].
  apply map_ext. intros r. apply run_text_spec.
Qed.

(** *** The sink only grows *)

Lemma appends_ret {A} (a : A) : appends (io_ret a).
Proof. intros out. exists EmptyString. simpl. by rewrite str_app_nil_r. Qed.

Lemma appends_lift {A} (m : result A) : appends (io_lift m).
Proof. intros out. exists EmptyString. simpl. by rewrite str_app_nil_r. Qed.

Lemma appends_write (s : string) : appends (write_str s).
Proof. intros out. by exists s. Qed.

Lemma appends_bind {A B} (m : io A) (k : A → io B) :
  appends m → (∀ a, appends (k a)) → appends (io_bind m k).
Proof.
  intros Hm Hk out. unfold io_bind. destruct (Hm out) as [r1 E1].
  destruct (m out) as [[a|e] out1]; simpl in E1; subst out1.
  - destruct (Hk a (out +:+ r1)) as [r2 E2]. exists (r1 +:+ r2).
    by rewrite E2, str_app_assoc.
  - by exists r1.
Qed.

Lemma appends_for {A} (body : A → io unit) (l : list A) :
  (∀ a, appends (body a)) → appends (io_for body l).
Proof.
  intros Hb. induction l as [|a l IH]; simpl.
  - apply appends_ret.
  - apply appends_bind; [apply Hb | intros _; apply IH].
Qed.

Lemma appends_write_body_section (self : converter) (depth : nat) :
  appends (write_body_section self depth).
Proof.
  unfold write_body_section, write_body_bandwise.
  apply appends_bind; [|intros _].
  - apply appends_for. intros n. unfold write_color.
    repeat (apply appends_bind; [apply appends_lift | intros ?]).
    apply appends_write.
  - apply appends_for. intros y0. unfold write_band.
    apply appends_bind; [apply appends_lift | intros buf].
    apply appends_bind; [|intros _].
    + apply appends_for. intros nd out. rewrite write_node_out. by eexists.
    + destruct (_ <? _); [apply appends_write | apply appends_ret].
Qed.

(** Whatever happens later, the stream starts with the introducer and the
    header. *)
Lemma write_starts_with_header (self : converter) (depth : nat)
    (out : string) :
  ∃ rest,
    (write self false depth out).2
    = out +:+ DCS self +:+ header_text self +:+ rest.
Proof.
  unfold write. simpl.
  assert (Hrest : appends (write_body_section self depth ;;;
                           write_terminator self)).
  { apply appends_bind; [apply appends_write_body_section | intros _].
    apply appends_write. }
  unfold io_bind at 1. unfold write_header, io_bind at 1, write_str at 1 2.
  destruct (Hrest ((out +:+ DCS self) +:+ header_text self)) as [rest E].
  exists rest. rewrite E, !str_app_assoc. done.
Qed.

Lemma header_text_spec (self : converter) :
  header_text self = spec_header self.
Proof.
  unfold header_text, spec_header. destruct (chromakey self); reflexivity.
Qed.

(** C9: when not in body-only mode the text written right after the
    introducer is the header: [7;<bgFlag>;75q], a double quote, then
    [1;1;<width>;<height>], with [bgFlag] 2 when chroma-key is enabled and
    1 otherwise, and the width and height of the image in decimal. *)
Theorem header_after_introducer (self : converter) (depth : nat)
    (out : string) :
  ∃ rest,
    (write self false depth out).2
    = out +:+ DCS self
        +:+ ("7;" +:+ (if chromakey self then "2" else "1") +:+ ";75q"
               +:+ String dquote "1;1;" +:+ fmt_d (width self) +:+ ";"
               +:+ fmt_d (height self))
        +:+ rest.
Proof.
  destruct (write_starts_with_header self depth out) as [rest E].
  exists rest. rewrite E, header_text_spec. reflexivity.
Qed.

(** ** Bands and their separators *)

Lemma range_go_closed (fuel k h : nat) :
  h ≤ fuel + 6 * k →
  range_go fuel (6 * k) h 6
  = map (fun j => 6 * j) (seq k ((h + 5) / 6 - k)).
Proof.
  pose proof (Nat.div_mod_eq (h + 5) 6) as Hdiv.
  pose proof (Nat.mod_upper_bound (h + 5) 6 ltac:(lia)) as Hmod.
  revert k. induction fuel as [|fuel IH]; intros k Hk; cbn [range_go].
  - replace ((h + 5) / 6 - k) with 0 by lia. reflexivity.
  - destruct (Nat.ltb_spec (6 * k) h) as [Hlt|Hge].
    + replace ((h + 5) / 6 - k) with (S ((h + 5) / 6 - S k)) by lia.
      cbn [seq map]. f_equal. replace (6 * k + 6) with (6 * S k) by lia.
      apply IH. lia.
    + replace ((h + 5) / 6 - k) with 0 by lia. reflexivity.
Qed.

(** [range(0, height, 6)] is 0, 6, 12, ... and has [ceil(height / 6)]
    items. *)
Lemma range3_bands (h : nat) :
  range3 0 h 6 = map (fun k => 6 * k) (seq 0 ((h + 5) / 6)).
Proof.
  unfold range3. change 0 with (6 * 0) at 1.
  rewrite range_go_closed by lia. by rewrite Nat.sub_0_r.
Qed.

Lemma num_bands_ceil (h : nat) :
  0 < h → 6 * ((h + 5) / 6 - 1) < h ≤ 6 * ((h + 5) / 6).
Proof.
  intros Hh. pose proof (Nat.div_mod_eq (h + 5) 6).
  pose proof (Nat.mod_upper_bound (h + 5) 6 ltac:(lia)). lia.
Qed.

(** The separator is written after every band but the last. *)
Lemma band_sep_last (h : nat) (pre suf : list nat) (y0 : nat) :
  range3 0 h 6 = pre ++ y0 :: suf →
  (y0 + 6 <? h) = bool_decide (suf ≠ []).
Proof.
  rewrite range3_bands. intros Hl.
  pose proof (Nat.div_mod_eq (h + 5) 6) as Hdiv.
  pose proof (Nat.mod_upper_bound (h + 5) 6 ltac:(lia)) as Hmod.
  assert (Hlen : (h + 5) / 6 = length pre + S (length suf)).
  { apply (f_equal length) in Hl.
    by rewrite length_map, length_seq, length_app in Hl. }
  assert (Hy : y0 = 6 * length pre).
  { assert (Hx : map (fun k => 6 * k) (seq 0 ((h + 5) / 6)) !! length pre
                 = Some y0) by (by rewrite Hl, list_lookup_middle).
    rewrite list_lookup_fmap in Hx.
    destruct (seq 0 ((h + 5) / 6) !! length pre) as [k|] eqn:Hs; [|done].
    apply lookup_seq in Hs as [-> _]. simpl in Hx. injection Hx as <-.
    lia. }
  destruct suf as [|b suf]; cbn [length] in Hlen.
  - rewrite bool_decide_eq_false_2 by auto. apply Nat.ltb_ge. lia.
  - rewrite bool_decide_eq_true_2 by done. apply Nat.ltb_lt. lia.
Qed.

Lemma join_sep {A} (text : A → string) (sep : A → bool) (l : list A) :
  (∀ pre a suf, l = pre ++ a :: suf → sep a = bool_decide (suf ≠ [])) →
  str_concat
    (map (fun a => text a +:+ (if sep a then "-" else EmptyString)) l)
  = String.concat "-" (map text l).
Proof.
  induction l as [|a l IH]; intros Hsep; [done|].
  simpl. rewrite IH.
  - rewrite (Hsep [] a l eq_refl). destruct l as [|b l].
    + rewrite bool_decide_eq_false_2 by auto. simpl.
      by rewrite !str_app_nil_r.
    + rewrite bool_decide_eq_true_2 by done. simpl.
      by rewrite str_app_assoc.
  - intros pre b suf ->. apply (Hsep (a :: pre) b suf eq_refl).
Qed.

(** A loop whose steps append a known text, when it completes. *)
Lemma io_for_ok_text {A} (body : A → io unit) (text : A → string)
    (l : list A) (out out' : string) :
  (∀ a o o', a ∈ l → body a o = (Ok tt, o') → o' = o +:+ text a) →
  io_for body l out = (Ok tt, out') →
  out' = out +:+ str_concat (map text l)
  ∧ Forall (fun a => ∃ o o', body a o = (Ok tt, o')) l.
Proof.
  revert out. induction l as [|a l IH]; intros out Hb Hrun; simpl in *.
  - injection Hrun as <-. by rewrite str_app_nil_r.
  - unfold io_bind in Hrun.
    destruct (body a out) as [[[]|e] o1] eqn:Ha; [|done].
    apply IH in Hrun as [-> Hall].
    + rewrite (Hb a out o1) by (done || left). rewrite str_app_assoc.
      split; [done|]. constructor; eauto.
    + intros b o o' Hin. apply Hb. by right.
Qed.

Lemma write_color_ok (self : converter) (n : nat) (o o' : string) :
  write_color self n o = (Ok tt, o') → o' = o +:+ color_text self n.
Proof.
  unfold write_color, color_text, io_bind, io_lift, seq_index, write_str.
  destruct (palette self !! (n * 3 + 0)) as [r|]; [|done].
  destruct (palette self !! (n * 3 + 1)) as [g|]; [|done].
  destruct (palette self !! (n * 3 + 2)) as [b|]; [|done].
  simpl. by intros [= <-].
Qed.

Lemma write_band_ok (self : converter) (raw : option (list rgba))
    (depth y0 : nat) (o o' : string) :
  write_band self raw depth y0 o = (Ok tt, o') →
  encode_band (width self) (data self) raw (alpha_threshold self) y0
    (Nat.min 6 (height self - y0)) depth
  = Ok (band_nodes self raw depth y0)
  ∧ o' = o +:+ band_text (band_nodes self raw depth y0)
           +:+ band_sep self y0.
Proof.
  unfold write_band, band_nodes, band_sep, io_bind, io_lift.
  destruct (encode_band _ _ _ _ _ _ _) as [buf|e]; [|done].
  rewrite write_nodes_out.
  destruct (y0 + 6 <? height self); unfold write_str, io_ret;
    intros [= <-]; split; try done; by rewrite ?str_app_nil_r, ?str_app_assoc.
Qed.

(** What the body consists of when writing it completes. *)
Lemma write_body_bandwise_ok (self : converter) (raw : option (list rgba))
    (depth : nat) (out out' : string) :
  write_body_bandwise self raw depth out = (Ok tt, out') →
  Forall
    (fun y0 =>
       encode_band (width self) (data self) raw (alpha_threshold self) y0
         (Nat.min 6 (height self - y0)) depth
       = Ok (band_nodes self raw depth y0))
    (range3 0 (height self) 6)
  ∧ out' = out +:+ palette_text self
             +:+ String.concat "-"
                   (map (fun y0 => band_text (band_nodes self raw depth y0))
                        (range3 0 (height self) 6)).
Proof.
  unfold write_body_bandwise, io_bind. intros Hrun.
  destruct (io_for (write_color self) _ out) as [[[]|e] o1] eqn:Hpal;
    [|done].
  apply (io_for_ok_text _ (color_text self)) in Hpal as [-> _];
    [|intros a o o' _; apply write_color_ok].
  apply (io_for_ok_text _
           (fun y0 => band_text (band_nodes self raw depth y0)
                      +:+ band_sep self y0)) in Hrun as [-> Hall].
  - split.
    + eapply Forall_impl; [exact Hall|]. intros y0 (o & o' & Hy).
      by apply write_band_ok in Hy as [? _].
    + rewrite str_app_assoc. f_equal. unfold palette_text. f_equal.
      unfold band_sep.
      apply (join_sep (fun y0 => band_text (band_nodes self raw depth y0))
               (fun y0 => y0 + 6 <? height self)).
      intros pre a suf Hl. by eapply band_sep_last.
  - intros a o o' _ Hy. by apply write_band_ok in Hy as [_ ->].
Qed.

(** *** Only separators are written as ['-'] *)

Local Abbreviation dashes := (count_char "-"%char).

Lemma count_char_app (c : ascii) (s t : string) :
  count_char c (s +:+ t) = count_char c s + count_char c t.
Proof.
  induction s as [|a s IH]; [done|].
  rewrite str_app_cons. simpl. rewrite IH. lia.
Qed.

Lemma count_char_concat_0 (c : ascii) (l : list string) :
  Forall (fun t => count_char c t = 0) l → count_char c (str_concat l) = 0.
Proof.
  induction 1 as [|t l Ht _ IH]; simpl; [done|].
  rewrite count_char_app. lia.
Qed.

Lemma dashes_join (ts : list string) :
  Forall (fun t => dashes t = 0) ts →
  dashes (String.concat "-" ts) = length ts - 1.
Proof.
  induction 1 as [|t ts Ht Hts IH]; [done|].
  cbn [String.concat length]. destruct ts as [|t' ts]; [simpl; lia|].
  rewrite !count_char_app, IH, Ht. simpl. lia.
Qed.

Lemma dashes_pretty_N_go (x : N) (s : string) :
  dashes (pretty_N_go x s) = dashes s.
Proof.
  revert s. induction (N.lt_wf_0 x) as [x _ IH]; intros s.
  destruct (decide (x = 0%N)) as [->|Hx]; [by rewrite pretty_N_go_0|].
  rewrite pretty_N_go_step by lia. rewrite IH by (apply N.div_lt; lia).
  simpl. unfold pretty_N_char. by repeat case_match.
Qed.

Lemma dashes_fmt_d (n : nat) : dashes (fmt_d n) = 0.
Proof.
  unfold fmt_d, pretty, pretty_nat, pretty, pretty_N.
  case_decide; [done|]. by rewrite dashes_pretty_N_go.
Qed.

Lemma chr_not_dash (six : N) :
  (six < 64)%N → Ascii.eqb (chr (0x3f + six)) "-" = false.
Proof.
  intros Hsix. apply Ascii.eqb_neq. intros Heq.
  apply (f_equal N_of_ascii) in Heq. unfold chr in Heq.
  rewrite N_ascii_embedding in Heq by lia. simpl in Heq. lia.
Qed.

Lemma dashes_run_text (r : run_t) : (r.1 < 64)%N → dashes (run_text r) = 0.
Proof.
  destruct r as [six count]. simpl. intros Hsix. unfold run_text.
  pose proof (chr_not_dash six Hsix) as Hch.
  destruct (count <? 4).
  - induction count as [|n IH]; simpl; [done|]. by rewrite Hch, IH.
  - rewrite !count_char_app, dashes_fmt_d. simpl. by rewrite Hch.
Qed.

Lemma dashes_node_text (nd : node_t) :
  Forall (fun r : run_t => (r.1 < 64)%N) nd.2 → dashes (node_text nd) = 0.
Proof.
  intros Hall. unfold node_text.
  rewrite !count_char_app, dashes_fmt_d, count_char_concat_0; [done|].
  apply Forall_map. eapply Forall_impl; [exact Hall|].
  intros r. apply dashes_run_text.
Qed.

Lemma dashes_band_text (width : nat) (data : list nat)
    (rawdata : option (list rgba)) (alpha_threshold y band depth : nat)
    (buf : list node_t) :
  0 < band ≤ 6 →
  encode_band width data rawdata alpha_threshold y band depth = Ok buf →
  dashes (band_text buf) = 0.
Proof.
  intros [Hpos Hle] Hrun. unfold band_text. apply count_char_concat_0.
  apply Forall_map.
  destruct (encode_band_spec _ _ _ _ _ _ _ _ Hpos Hrun) as (_ & Hall & _).
  eapply Forall_impl; [exact Hall|]. intros nd Hok.
  apply dashes_node_text, Forall_forall. intros r Hr.
  eapply N.lt_le_trans; [by eapply node_ok_symbol_bound|].
  change 64%N with (2 ^ N.of_nat 6)%N. apply N.pow_le_mono_r; lia.
Qed.

Lemma dashes_palette_text (self : converter) : dashes (palette_text self) = 0.
Proof.
  unfold palette_text. apply count_char_concat_0, Forall_map, Forall_forall.
  intros n _. unfold color_text.
  rewrite !count_char_app, !dashes_fmt_d. reflexivity.
Qed.

(** C8: for an image of positive height the bands start at rows
    0, 6, 12, ..., there are [ceil(height / 6)] of them, each is encoded
    in turn, and the body is the palette followed by the texts of the bands
    with one ['-'] between each two consecutive bands and none after the
    last; no other ['-'] occurs, so exactly [numBands - 1] are written,
    also when a band has no node. *)
Theorem bands_and_separators (self : converter) (raw : option (list rgba))
    (depth : nat) (out out' : string) :
  0 < height self →
  write_body_bandwise self raw depth out = (Ok tt, out') →
  let num_bands := (height self + 5) / 6 in
  let ys := range3 0 (height self) 6 in
  let texts := map (fun y => band_text (band_nodes self raw depth y)) ys in
  6 * (num_bands - 1) < height self ≤ 6 * num_bands
  ∧ ys = map (fun k => 6 * k) (seq 0 num_bands)
  ∧ Forall
      (fun y =>
         encode_band (width self) (data self) raw (alpha_threshold self) y
           (Nat.min 6 (height self - y)) depth
         = Ok (band_nodes self raw depth y)) ys
  ∧ out' = out +:+ palette_text self +:+ String.concat "-" texts
  ∧ length texts = num_bands
  ∧ count_char "-" (palette_text self +:+ String.concat "-" texts)
    = num_bands - 1.
Proof.
  intros Hh Hrun. cbv zeta.
  apply write_body_bandwise_ok in Hrun as [Hall ->].
  pose proof (num_bands_ceil _ Hh) as Hceil.
  assert (Hlen : length (map (fun y => band_text (band_nodes self raw depth y))
                           (range3 0 (height self) 6))
                 = (height self + 5) / 6).
  { by rewrite length_map, range3_bands, length_map, length_seq. }
  split_and!; [lia | lia | apply range3_bands | done | done | done |].
  rewrite count_char_app, dashes_palette_text, dashes_join, Hlen; [done|].
  apply Forall_map. rewrite Forall_forall in Hall. apply Forall_forall.
  intros y Hy. eapply dashes_band_text; [|by apply Hall].
  rewrite range3_bands in Hy. apply list_elem_of_fmap in Hy as (k & -> & Hk).
  apply elem_of_seq in Hk. lia.
Qed.

Lemma bands_and_separators_witness :
  0 < height striped
  ∧ write_body_bandwise striped (Some (rawdata striped)) 10 "P"
    = (Ok tt, "P#0;2;3;7;11#1;2;78;39;99#0~~$--#0?@$#1@?$")
  ∧ range3 0 13 6 = [0; 6; 12]
  ∧ map (fun y => band_text
                    (band_nodes striped (Some (rawdata striped)) 10 y))
        (range3 0 13 6)
    = ["#0~~$"; EmptyString; "#0?@$#1@?$"]
  ∧ count_char "-" (palette_text striped +:+ "#0~~$--#0?@$#1@?$") = 3 - 1.
Proof.
  assert (H0 : 0 < height striped) by (simpl; lia).
  assert (H1 : write_body_bandwise striped (Some (rawdata striped)) 10 "P"
               = (Ok tt, "P#0;2;3;7;11#1;2;78;39;99#0~~$--#0?@$#1@?$"))
    by (vm_compute; reflexivity).
  split; [exact H0|]. split; [exact H1|].
  split; [reflexivity|]. split; [vm_compute; reflexivity|].
  pose proof (bands_and_separators striped (Some (rawdata striped)) 10 _ _
                H0 H1) as (_ & _ & _ & _ & _ & Hcount).
  exact Hcount.
Defined.

(** ** Failures and the sink *)


Lemma io_for_total {A} (body : A → io unit) (l : list A) (out : string) :
  (∀ a o, a ∈ l → ∃ o', body a o = (Ok tt, o')) →
  ∃ out', io_for body l out = (Ok tt, out').
Proof.
  revert out. induction l as [|a l IH]; intros out Hb; simpl.
  - by eexists.
  - unfold io_bind. destruct (Hb a out) as [o1 ->]; [left|].
    apply IH. intros b o Hin. apply Hb. by right.
Qed.

Lemma write_color_total (self : converter) (n : nat) (o : string) :
  n * 3 + 2 < length (palette self) →
  ∃ o', write_color self n o = (Ok tt, o').
Proof.
  intros Hn. unfold write_color, io_bind, io_lift, seq_index, write_str.
  destruct (lookup_lt_is_Some_2 (palette self) (n * 3 + 0)) as [r ->]; [lia|].
  destruct (lookup_lt_is_Some_2 (palette self) (n * 3 + 1)) as [g ->]; [lia|].
  destruct (lookup_lt_is_Some_2 (palette self) (n * 3 + 2)) as [b ->]; [lia|].
  by eexists.
Qed.





(** ** The envelope around the body *)

Lemma uniform_ret {A} (a : A) : uniform (io_ret a).
Proof.
  exists (Ok a), EmptyString. intros out. unfold io_ret.
  by rewrite str_app_nil_r.
Qed.

Lemma uniform_lift {A} (m : result A) : uniform (io_lift m).
Proof.
  exists m, EmptyString. intros out. unfold io_lift.
  by rewrite str_app_nil_r.
Qed.

Lemma uniform_write (s : string) : uniform (write_str s).
Proof. by exists (Ok tt), s. Qed.

Lemma uniform_bind {A B} (m : io A) (k : A → io B) :
  uniform m → (∀ a, uniform (k a)) → uniform (io_bind m k).
Proof.
  intros (r & rest & Hm) Hk. destruct r as [a|e].
  - destruct (Hk a) as (r2 & rest2 & Hka). exists r2, (rest +:+ rest2).
    intros out. unfold io_bind. by rewrite Hm, Hka, str_app_assoc.
  - exists (Raise e), rest. intros out. unfold io_bind. by rewrite Hm.
Qed.

Lemma uniform_for {A} (body : A → io unit) (l : list A) :
  (∀ a, uniform (body a)) → uniform (io_for body l).
Proof.
  intros Hb. induction l as [|a l IH]; simpl.
  - apply uniform_ret.
  - apply uniform_bind; [apply Hb | intros _; apply IH].
Qed.

Lemma uniform_write_body_section (self : converter) (depth : nat) :
  uniform (write_body_section self depth).
Proof.
  unfold write_body_section, write_body_bandwise.
  apply uniform_bind; [|intros _].
  - apply uniform_for. intros n. unfold write_color.
    repeat (apply uniform_bind; [apply uniform_lift | intros ?]).
    apply uniform_write.
  - apply uniform_for. intros y0. unfold write_band.
    apply uniform_bind; [apply uniform_lift | intros buf].
    apply uniform_bind; [|intros _].
    + exists (Ok tt), (band_text buf). intros out. apply write_nodes_out.
    + destruct (_ <? _); [apply uniform_write | apply uniform_ret].
Qed.

(** X1: a full [write] is the body-only [write] wrapped in the envelope:
    the introducer and header go before the body text, and the terminator
    after it.  When the body raises, the same exception comes out of the
    full [write], whose sink then holds introducer, header and the partial
    body but no terminator. *)
Theorem envelope_wraps_body (self : converter) (depth : nat)
    (r : result unit) (body : string) :
  write self true depth EmptyString = (r, body) →
  ∀ out,
    write self false depth out
    = (r,
       out +:+ DCS self +:+ header_text self +:+ body
         +:+ match r with Ok _ => ST self | Raise _ => EmptyString end).
Proof.
  intros Hbody out.
  destruct (uniform_write_body_section self depth) as (r0 & rest & Hu).
  unfold write in *. simpl in *. unfold io_bind in *.
  unfold io_ret at 1 in Hbody. rewrite Hu in Hbody.
  unfold write_header, io_bind, write_str at 1 2. rewrite Hu.
  destruct r0 as [[]|e]; unfold io_ret in Hbody; injection Hbody as <- <-.
  - unfold write_terminator, write_str. by rewrite !str_app_assoc.
  - by rewrite str_app_nil_r, !str_app_assoc.
Qed.

Lemma envelope_wraps_body_witness :
  write checker true 10 EmptyString
  = (Ok tt, "#0;2;0;0;0#1;2;99;99;99#1A@$#0@A$")
  ∧ write checker false 10 "x"
    = (Ok tt,
       "x" +:+ DCS checker +:+ header_text checker
         +:+ "#0;2;0;0;0#1;2;99;99;99#1A@$#0@A$" +:+ ST checker).
Proof.
  assert (H : write checker true 10 EmptyString
              = (Ok tt, "#0;2;0;0;0#1;2;99;99;99#1A@$#0@A$"))
    by (vm_compute; reflexivity).
  split; [exact H|].
  exact (envelope_wraps_body checker 10 _ _ H "x").
Defined.

(** X2: the text [getvalue] returns is the whole stream: introducer,
    header, one definition per palette entry, the texts of the bands at
    rows 0, 6, 12, ... with ['-'] between consecutive bands, terminator. *)
Theorem getvalue_layout (self : converter) (depth : nat) (value : string) :
  getvalue self depth = Ok value →
  value
  = DCS self +:+ spec_header self +:+ palette_text self
      +:+ String.concat "-"
            (map (fun y =>
                    band_text
                      (band_nodes self
                         (if 0 <? alpha_threshold self
                          then Some (rawdata self) else None) depth y))
                 (range3 0 (height self) 6))
      +:+ ST self.
Proof.
  unfold getvalue, write. simpl. unfold io_bind at 1.
  unfold write_header, io_bind at 1, write_str at 1 2.
  unfold io_bind, write_body_section.
  destruct (write_body_bandwise self _ depth _) as [[[]|e] o1] eqn:Hbody;
    [|done].
  apply write_body_bandwise_ok in Hbody as [_ ->].
  unfold write_terminator, write_str. intros [= <-].
  rewrite <- header_text_spec, !str_app_assoc. reflexivity.
Qed.

Lemma getvalue_layout_witness :
  getvalue checker 10
  = Ok (DCS checker +:+ spec_header checker
          +:+ "#0;2;0;0;0#1;2;99;99;99#1A@$#0@A$" +:+ ST checker)
  ∧ DCS checker +:+ spec_header checker
      +:+ "#0;2;0;0;0#1;2;99;99;99#1A@$#0@A$" +:+ ST checker
    = DCS checker +:+ spec_header checker +:+ palette_text checker
        +:+ String.concat "-"
              (map (fun y => band_text (band_nodes checker None 10 y))
                   (range3 0 2 6))
        +:+ ST checker.
Proof.
  assert (H : getvalue checker 10
              = Ok (DCS checker +:+ spec_header checker
                      +:+ "#0;2;0;0;0#1;2;99;99;99#1A@$#0@A$"
                      +:+ ST checker))
    by (vm_compute; reflexivity).
  split; [exact H|].
  exact (getvalue_layout checker 10 _ H).
Defined.

(** ** The palette definitions *)

Lemma io_for_app {A} (body : A → io unit) (l1 l2 : list A) (out : string) :
  io_for body (l1 ++ l2) out
  = (io_for body l1 ;;; io_for body l2) out.
Proof.
  revert out. induction l1 as [|a l1 IH]; intros out; simpl.
  - unfold io_bind, io_ret. done.
  - unfold io_bind. destruct (body a out) as [[[]|e] out']; [|done].
    rewrite IH. done.
Qed.


Lemma write_color_fail (self : converter) (n : nat) (o : string) :
  length (palette self) ≤ n * 3 + 2 →
  write_color self n o = (Raise IndexError, o).
Proof.
  intros Hn. unfold write_color, io_bind, io_lift, seq_index.
  destruct (palette self !! (n * 3 + 0)) as [r|]; [|done].
  destruct (palette self !! (n * 3 + 1)) as [g|]; [|done].
  by rewrite (lookup_ge_None_2 (palette self) (n * 3 + 2)) by lia.
Qed.

(** X3: a palette entry is written as [#n;2;r;g;b] where each of r, g, b
    is the channel times 100 divided by 256, rounded down; for channels
    of at most 255 the percentages are at most 99, so 100 is never
    written. *)
Theorem palette_percent_below_100 (self : converter) (n : nat)
    (out : string) :
  n * 3 + 2 < length (palette self) →
  Forall (fun c => c ≤ 255) (palette self) →
  ∃ cr cg cb,
    palette self !! (n * 3 + 0) = Some cr
    ∧ palette self !! (n * 3 + 1) = Some cg
    ∧ palette self !! (n * 3 + 2) = Some cb
    ∧ write_color self n out
      = (Ok tt,
         out +:+ "#" +:+ fmt_d n +:+ ";2;" +:+ fmt_d (cr * 100 / 256)
           +:+ ";" +:+ fmt_d (cg * 100 / 256)
           +:+ ";" +:+ fmt_d (cb * 100 / 256))
    ∧ cr * 100 / 256 ≤ 99 ∧ cg * 100 / 256 ≤ 99 ∧ cb * 100 / 256 ≤ 99.
Proof.
  intros Hn Hall. rewrite Forall_forall in Hall.
  destruct (lookup_lt_is_Some_2 (palette self) (n * 3 + 0)) as [cr Hr]; [lia|].
  destruct (lookup_lt_is_Some_2 (palette self) (n * 3 + 1)) as [cg Hg]; [lia|].
  destruct (lookup_lt_is_Some_2 (palette self) (n * 3 + 2)) as [cb Hb]; [lia|].
  assert (Hle : ∀ k c, palette self !! k = Some c → c * 100 / 256 ≤ 99).
  { intros k c Hk. apply list_elem_of_lookup_2, Hall in Hk.
    assert (c * 100 / 256 < 100); [|lia].
    apply Nat.Div0.div_lt_upper_bound. lia. }
  exists cr, cg, cb. split_and!; eauto.
  unfold write_color, io_bind, io_lift, seq_index, write_str.
  by rewrite Hr, Hg, Hb.
Qed.

Lemma palette_percent_below_100_witness :
  0 * 3 + 2 < length (palette striped)
  ∧ Forall (fun c => c ≤ 255) (palette striped)
  ∧ ∃ cr cg cb,
      palette striped !! (0 * 3 + 0) = Some cr
      ∧ palette striped !! (0 * 3 + 1) = Some cg
      ∧ palette striped !! (0 * 3 + 2) = Some cb
      ∧ write_color striped 0 EmptyString
        = (Ok tt,
           EmptyString +:+ "#" +:+ fmt_d 0 +:+ ";2;"
             +:+ fmt_d (cr * 100 / 256) +:+ ";" +:+ fmt_d (cg * 100 / 256)
             +:+ ";" +:+ fmt_d (cb * 100 / 256))
      ∧ cr * 100 / 256 ≤ 99 ∧ cg * 100 / 256 ≤ 99 ∧ cb * 100 / 256 ≤ 99.
Proof.
  assert (H1 : 0 * 3 + 2 < length (palette striped)) by (simpl; lia).
  assert (H2 : Forall (fun c => c ≤ 255) (palette striped))
    by (simpl; repeat constructor; lia).
  split; [exact H1|]. split; [exact H2|].
  exact (palette_percent_below_100 striped 0 EmptyString H1 H2).
Defined.

(** X4: when the palette holds fewer than [3 * ncolor] values, writing the
    body raises [IndexError] after the definitions of the entries that are
    complete; the entry that cannot be read leaves nothing in the sink, and
    no band is written. *)
Theorem short_palette_stops_between_entries (self : converter)
    (raw : option (list rgba)) (depth : nat) (out : string) :
  length (palette self) < 3 * ncolor self →
  write_body_bandwise self raw depth out
  = (Raise IndexError,
     out +:+ str_concat
               (map (color_text self)
                    (range2 0 (length (palette self) / 3)))).
Proof.
  intros Hshort. set (k := length (palette self) / 3).
  pose proof (Nat.div_mod_eq (length (palette self)) 3) as Hdiv.
  pose proof (Nat.mod_upper_bound (length (palette self)) 3 ltac:(lia))
    as Hmod.
  fold k in Hdiv.
  assert (Hsplit : range2 0 (ncolor self)
                   = range2 0 k ++ k :: range2 (S k) (ncolor self)).
  { unfold range2. rewrite !Nat.sub_0_r.
    replace (ncolor self) with (k + S (ncolor self - S k)) at 1 by lia.
    rewrite seq_app. simpl. done. }
  unfold write_body_bandwise. unfold io_bind at 1.
  rewrite Hsplit, io_for_app. unfold io_bind at 1.
  assert (Hpre : io_for (write_color self) (range2 0 k) out
                 = (Ok tt,
                    out +:+ str_concat
                              (map (color_text self) (range2 0 k)))).
  { destruct (io_for_total (write_color self) (range2 0 k) out) as [o' Ho].
    - intros n o Hn. apply write_color_total.
      unfold range2 in Hn. apply elem_of_seq in Hn. lia.
    - rewrite Ho. f_equal.
      apply (io_for_ok_text _ (color_text self)) in Ho as [-> _]; [done|].
      intros a o o1 _. apply write_color_ok. }
  rewrite Hpre. simpl. unfold io_bind at 1.
  rewrite write_color_fail by lia. done.
Qed.

Lemma short_palette_stops_between_entries_witness :
  length [1; 2; 3; 4] < 3 * 2
  ∧ write_body_bandwise
      {| f8bit := false; ncolor := 2; alpha_threshold := 0;
         chromakey := false; palette := [1; 2; 3; 4]; data := [0];
         rawdata := []; width := 1; height := 1 |} None 10 "P"
    = (Raise IndexError, "P#0;2;0;0;1").
Proof.
  assert (H : length [1; 2; 3; 4] < 3 * 2) by (simpl; lia).
  split; [exact H|].
  exact (short_palette_stops_between_entries
           {| f8bit := false; ncolor := 2; alpha_threshold := 0;
              chromakey := false; palette := [1; 2; 3; 4]; data := [0];
              rawdata := []; width := 1; height := 1 |} None 10 "P" H).
Defined.

(** ** More on the nodes of a band *)

(** X5: a band has no node exactly when every pixel of its first row
    reads as BG; the rows below are not consulted. *)
Theorem band_empty_iff_first_row_bg (width : nat) (data : list nat)
    (rawdata : option (list rgba)) (alpha_threshold y band depth : nat)
    (buf : list node_t) :
  0 < width →
  encode_band width data rawdata alpha_threshold y band depth = Ok buf →
  buf = [] ↔
  ∀ x, x < width → pixel_at width data rawdata alpha_threshold y x 0 = Ok BG.
Proof.
  intros Hw Hrun. unfold encode_band in Hrun.
  apply rbind_ok in Hrun as (first & Hfirst & Hrun).
  rewrite <- (Nat.add_0_r (y * width)), <- pix_row0 in Hfirst.
  assert (Hroot : ∀ d x seen' buf',
    d ≠ BG →
    add_node width data rawdata alpha_threshold y band depth d x
      ({[d]}, []) = Ok (seen', buf') → buf' ≠ []).
  { intros d x seen' buf' Hd Hadd.
    apply add_node_spec in Hadd as (_ & new & E & _); [|done].
    simpl in E. rewrite E. by destruct new. }
  destruct (Nat.eqb_spec first BG) as [->|Hne]; simpl in Hrun.
  - apply rbind_ok in Hrun as (found & Hscan & Hrun).
    apply scan_first_row_spec in Hscan. destruct found as [[d x0]|].
    + destruct Hscan as (Hd & Hp & pre & suf & Hl & _).
      apply rbind_ok in Hrun as ([seen' buf'] & Hadd & Hrun).
      injection Hrun as <-. apply Hroot in Hadd; [|done].
      split; [done|]. intros Hall. destruct Hd.
      assert (Hx : x0 < width).
      { assert (Hin : x0 ∈ range2 0 width) by (rewrite Hl; set_solver).
        unfold range2 in Hin. apply elem_of_seq in Hin. lia. }
      specialize (Hall x0 Hx). congruence.
    + injection Hrun as <-. split; [|done]. intros _ x Hx.
      apply Hscan. unfold range2. apply elem_of_seq. lia.
  - apply rbind_ok in Hrun as ([seen' buf'] & Hadd & Hrun).
    injection Hrun as <-. apply Hroot in Hadd; [|done].
    split; [done|]. intros Hall. specialize (Hall 0 Hw). congruence.
Qed.

Lemma band_empty_iff_first_row_bg_witness :
  0 < 2
  ∧ encode_band 2 [1; 1; 4; 4]
      (Some [(0, 0, 0, 0); (0, 0, 0, 0); (0, 0, 0, 255); (0, 0, 0, 255)])
      1 0 2 10 = Ok []
  ∧ (@nil node_t = [] ↔
     ∀ x, x < 2 →
       pixel_at 2 [1; 1; 4; 4]
         (Some [(0, 0, 0, 0); (0, 0, 0, 0); (0, 0, 0, 255); (0, 0, 0, 255)])
         1 0 x 0 = Ok BG).
Proof.
  assert (H0 : 0 < 2) by lia.
  assert (H1 : encode_band 2 [1; 1; 4; 4]
                 (Some [(0, 0, 0, 0); (0, 0, 0, 0);
                        (0, 0, 0, 255); (0, 0, 0, 255)])
                 1 0 2 10 = Ok [])
    by (vm_compute; reflexivity).
  split; [exact H0|]. split; [exact H1|].
  exact (band_empty_iff_first_row_bg _ _ _ _ _ _ _ _ H0 H1).
Defined.

(** X6: every bitmask emitted for a band of [band] rows is below
    [2 ^ band]: the bits of the sub-rows beyond the band are never set,
    and with at most six rows each symbol is below 64. *)
Theorem symbols_fit_band (width : nat) (data : list nat)
    (rawdata : option (list rgba)) (alpha_threshold y band depth : nat)
    (buf : list node_t) (n k : nat) (nd : node_t) (r : run_t) :
  0 < band →
  encode_band width data rawdata alpha_threshold y band depth = Ok buf →
  buf !! n = Some nd →
  nd.2 !! k = Some r →
  (r.1 < 2 ^ N.of_nat band)%N
  ∧ (∀ i, band ≤ i → N.testbit r.1 (N.of_nat i) = false)
  ∧ (band ≤ 6 → (r.1 < 64)%N).
Proof.
  intros Hband Hrun Hn Hk.
  assert (Hlt : (r.1 < 2 ^ N.of_nat band)%N).
  { eapply node_ok_symbol_bound.
    - eapply encoded_node_ok; eauto.
    - by eapply list_elem_of_lookup_2. }
  split_and!; [done | |].
  - intros i Hi. destruct (N.eq_dec r.1 0) as [->|Hnz]; [apply N.bits_0|].
    apply N.bits_above_log2. apply N.log2_lt_pow2 in Hlt; lia.
  - intros Hle. eapply N.lt_le_trans; [exact Hlt|].
    change 64%N with (2 ^ N.of_nat 6)%N. apply N.pow_le_mono_r; lia.
Qed.

Lemma symbols_fit_band_witness :
  0 < 2
  ∧ encode_band 2 [0; 1; 1; 0] None 0 0 2 10
    = Ok [(1, [(2%N, 1); (1%N, 1)]); (0, [(1%N, 1); (2%N, 1)])]
  ∧ (2 < 2 ^ N.of_nat 2)%N
  ∧ (∀ i, 2 ≤ i → N.testbit 2 (N.of_nat i) = false)
  ∧ (2 ≤ 6 → (2 < 64)%N).
Proof.
  assert (H0 : 0 < 2) by lia.
  assert (H1 : encode_band 2 [0; 1; 1; 0] None 0 0 2 10
               = Ok [(1, [(2%N, 1); (1%N, 1)]); (0, [(1%N, 1); (2%N, 1)])])
    by (vm_compute; reflexivity).
  split; [exact H0|]. split; [exact H1|].
  apply (symbols_fit_band 2 [0; 1; 1; 0] None 0 0 2 10 _ 0 0
           (1, [(2%N, 1); (1%N, 1)]) (2%N, 1) H0 H1); reflexivity.
Defined.

(** X7: without an RGBA buffer and with palette indices below 256 no pixel
    reads as BG, so a band that is encoded covers every pixel: the node of
    the pixel's color has the pixel's bit set at the pixel's column. *)
Theorem opaque_band_covers_every_pixel (width : nat) (data : list nat)
    (alpha_threshold y band depth : nat) (buf : list node_t)
    (x i c : nat) :
  0 < band →
  Forall (fun d => d < 256) data →
  encode_band width data None alpha_threshold y band depth = Ok buf →
  x < width → i < band →
  pixel_at width data None alpha_threshold y x i = Ok c →
  ∃ n nd, buf !! n = Some nd ∧ nd.1 = c ∧ bit_at nd x i = true.
Proof.
  intros Hband Hdata Hrun Hx Hi Hp. rewrite Forall_forall in Hdata.
  assert (Hvis : ∀ p d, get_pixel data None alpha_threshold p = Ok d →
                        d ≠ BG).
  { intros p d Hd. unfold get_pixel, seq_index in Hd.
    destruct (data !! p) as [a|] eqn:E; [|done]. injection Hd as <-.
    apply list_elem_of_lookup_2, Hdata in E. unfold BG. lia. }
  pose proof Hrun as Hrun'. unfold encode_band in Hrun'.
  apply rbind_ok in Hrun' as (first & Hfirst & _).
  destruct (encode_band_covers _ _ _ _ _ _ _ _ _ Hband Hfirst
              (Hvis _ _ Hfirst) Hrun) as [Hfull Hcov].
  assert (Hc : c ≠ BG) by (by eapply Hvis).
  specialize (Hcov x i c Hx Hi Hp Hc).
  apply list_elem_of_fmap in Hcov as (nd & -> & Hin).
  pose proof Hin as Hin'. apply list_elem_of_lookup in Hin' as [n Hn].
  exists n, nd. split_and!; [done | done |].
  rewrite Forall_forall in Hfull. unfold bit_at.
  rewrite (Hfull nd Hin x) by lia.
  by apply six_of_testbit.
Qed.

Lemma opaque_band_covers_every_pixel_witness :
  0 < 2
  ∧ Forall (fun d => d < 256) [0; 1; 1; 0]
  ∧ encode_band 2 [0; 1; 1; 0] None 0 0 2 10
    = Ok [(1, [(2%N, 1); (1%N, 1)]); (0, [(1%N, 1); (2%N, 1)])]
  ∧ ∃ n nd,
      [(1, [(2%N, 1); (1%N, 1)]); (0, [(1%N, 1); (2%N, 1)])] !! n = Some nd
      ∧ nd.1 = 1 ∧ bit_at nd 0 1 = true.
Proof.
  assert (H0 : 0 < 2) by lia.
  assert (Hd : Forall (fun d => d < 256) [0; 1; 1; 0])
    by (repeat constructor; lia).
  assert (H1 : encode_band 2 [0; 1; 1; 0] None 0 0 2 10
               = Ok [(1, [(2%N, 1); (1%N, 1)]); (0, [(1%N, 1); (2%N, 1)])])
    by (vm_compute; reflexivity).
  split; [exact H0|]. split; [exact Hd|]. split; [exact H1|].
  apply (opaque_band_covers_every_pixel 2 [0; 1; 1; 0] 0 0 2 10 _ 0 1 1
           H0 Hd H1); [lia | lia | reflexivity].
Defined.

(** X11: with transparency, every visible pixel at or right of the column
    of the seed (the first pixel of the band's first row that is not BG)
    is covered: the node of its color has its bit set at its column.  Only
    pixels left of the seed's column can be missing from the nodes. *)
Theorem pixels_from_seed_column_covered (width : nat) (data : list nat)
    (rawdata : option (list rgba)) (alpha_threshold y band depth : nat)
    (buf : list node_t) (seed x0 x i c : nat) :
  0 < band →
  seeded width data rawdata alpha_threshold y seed x0 →
  encode_band width data rawdata alpha_threshold y band depth = Ok buf →
  x0 ≤ x → x < width → i < band →
  pixel_at width data rawdata alpha_threshold y x i = Ok c → c ≠ BG →
  ∃ n nd, buf !! n = Some nd ∧ nd.1 = c ∧ bit_at nd x i = true.
Proof.
  intros Hband Hseed Hrun Hlo Hx Hi Hp Hc.
  destruct (encode_band_covers_from_seed _ _ _ _ _ _ _ _ _ _ Hband Hseed
              Hrun) as [Hfull Hcov].
  specialize (Hcov x i c Hlo Hx Hi Hp Hc).
  apply list_elem_of_fmap in Hcov as (nd & -> & Hin).
  pose proof Hin as Hin'. apply list_elem_of_lookup in Hin' as [n Hn].
  exists n, nd. split_and!; [done | done |].
  rewrite Forall_forall in Hfull. unfold bit_at.
  rewrite (Hfull nd Hin x) by lia.
  by apply six_of_testbit.
Qed.

Lemma pixels_from_seed_column_covered_witness :
  0 < 2
  ∧ seeded 2 [3; 3; 5; 3] (Some (rawdata veiled)) 128 0 3 1
  ∧ encode_band 2 [3; 3; 5; 3] (Some (rawdata veiled)) 128 0 2 10
    = Ok [(3, [(0%N, 1); (3%N, 1)])]
  ∧ ∃ n nd,
      [(3, [(0%N, 1); (3%N, 1)])] !! n = Some nd
      ∧ nd.1 = 3 ∧ bit_at nd 1 1 = true.
Proof.
  assert (H0 : 0 < 2) by lia.
  assert (Hs : seeded 2 [3; 3; 5; 3] (Some (rawdata veiled)) 128 0 3 1).
  { split_and!; [discriminate | reflexivity | right; lia |].
    intros x Hx. assert (x = 0) as -> by lia. reflexivity. }
  assert (H1 : encode_band 2 [3; 3; 5; 3] (Some (rawdata veiled)) 128 0 2 10
               = Ok [(3, [(0%N, 1); (3%N, 1)])])
    by (vm_compute; reflexivity).
  split; [exact H0|]. split; [exact Hs|]. split; [exact H1|].
  apply (pixels_from_seed_column_covered 2 [3; 3; 5; 3]
           (Some (rawdata veiled)) 128 0 2 10 _ 3 1 1 1 3 H0 Hs H1);
    [lia | lia | lia | reflexivity | discriminate].
Defined.

(** ** The recursion limit *)

Lemma for_each_mono {A S} (body1 body2 : A → S → result S) (l : list A)
    (s s' : S) :
  (∀ a t t', body1 a t = Ok t' → body2 a t = Ok t') →
  for_each body1 l s = Ok s' → for_each body2 l s = Ok s'.
Proof.
  intros Hb. revert s. induction l as [|a l IH]; intros s Hrun; simpl in *.
  - done.
  - apply rbind_ok in Hrun as (t & Ha & Hrun).
    rewrite (Hb _ _ _ Ha). simpl. by apply IH.
Qed.

Lemma add_node_body_mono (width : nat) (data : list nat)
    (rawdata : option (list rgba)) (alpha_threshold y band : nat)
    (call1 call2 : nat → nat → gset nat * list node_t
                   → result (gset nat * list node_t))
    (color start_x : nat) (sh sh' : gset nat * list node_t) :
  (∀ d x t t', call1 d x t = Ok t' → call2 d x t = Ok t') →
  add_node_body width data rawdata alpha_threshold y band call1
    color start_x sh = Ok sh' →
  add_node_body width data rawdata alpha_threshold y band call2
    color start_x sh = Ok sh'.
Proof.
  intros Hcall Hrun. unfold add_node_body in *.
  apply rbind_ok in Hrun as (st & Hloop & Hrun).
  apply (for_each_mono _
           (scan_column width data rawdata alpha_threshold y band call2
              color)) in Hloop; [by rewrite Hloop|].
  clear -Hcall. intros x [sh1 rs] t' Hcol. unfold scan_column in *.
  apply rbind_ok in Hcol as (st & Hloop & Hcol).
  apply (for_each_mono _
           (scan_pixel width data rawdata alpha_threshold y call2
              color x)) in Hloop; [by rewrite Hloop|].
  clear -Hcall. intros i [[seen buf] six] t' Hpix. unfold scan_pixel in *.
  destruct (get_pixel data rawdata alpha_threshold _) as [d|e]; [|done].
  simpl in *. destruct (d =? BG); [done|]. destruct (d =? color); [done|].
  destruct (decide (d ∈ seen)); [done|].
  apply rbind_ok in Hpix as (sh1 & Hc & Hpix).
  by rewrite (Hcall _ _ _ _ Hc).
Qed.

Lemma add_node_depth_mono (width : nat) (data : list nat)
    (rawdata : option (list rgba)) (alpha_threshold y band : nat)
    (depth1 depth2 color start_x : nat) (sh sh' : gset nat * list node_t) :
  depth1 ≤ depth2 →
  add_node width data rawdata alpha_threshold y band depth1 color start_x sh
  = Ok sh' →
  add_node width data rawdata alpha_threshold y band depth2 color start_x sh
  = Ok sh'.
Proof.
  revert depth2 color start_x sh sh'.
  induction depth1 as [|d1 IH]; intros depth2 color start_x sh sh' Hle Hrun.
  - discriminate.
  - destruct depth2 as [|d2]; [lia|]. simpl in *.
    eapply add_node_body_mono; [|exact Hrun].
    intros d x t t' Hc. apply IH; [lia | done].
Qed.

(** X8: the recursion limit only decides whether a band is encoded, never
    what is encoded: when [encode_band] returns nodes under one limit it
    returns the same nodes under every larger limit. *)
Theorem result_independent_of_recursion_limit (width : nat)
    (data : list nat) (rawdata : option (list rgba))
    (alpha_threshold y band depth1 depth2 : nat) (buf : list node_t) :
  depth1 ≤ depth2 →
  encode_band width data rawdata alpha_threshold y band depth1 = Ok buf →
  encode_band width data rawdata alpha_threshold y band depth2 = Ok buf.
Proof.
  intros Hle Hrun. unfold encode_band in *.
  destruct (get_pixel data rawdata alpha_threshold (y * width)) as [first|e];
    [|done].
  simpl in *. destruct (negb (first =? BG)).
  - apply rbind_ok in Hrun as (sh & Hadd & Hrun).
    by rewrite (add_node_depth_mono _ _ _ _ _ _ _ _ _ _ _ _ Hle Hadd).
  - destruct (scan_first_row width data rawdata alpha_threshold y _)
      as [[[d x]|]|e]; [|done|done].
    simpl in *. apply rbind_ok in Hrun as (sh & Hadd & Hrun).
    by rewrite (add_node_depth_mono _ _ _ _ _ _ _ _ _ _ _ _ Hle Hadd).
Qed.

Lemma result_independent_of_recursion_limit_witness :
  2 ≤ 1000
  ∧ encode_band 2 [0; 1; 1; 0] None 0 0 2 2
    = Ok [(1, [(2%N, 1); (1%N, 1)]); (0, [(1%N, 1); (2%N, 1)])]
  ∧ encode_band 2 [0; 1; 1; 0] None 0 0 2 1000
    = Ok [(1, [(2%N, 1); (1%N, 1)]); (0, [(1%N, 1); (2%N, 1)])].
Proof.
  assert (H0 : 2 ≤ 1000) by lia.
  assert (H1 : encode_band 2 [0; 1; 1; 0] None 0 0 2 2
               = Ok [(1, [(2%N, 1); (1%N, 1)]); (0, [(1%N, 1); (2%N, 1)])])
    by (vm_compute; reflexivity).
  split; [exact H0|]. split; [exact H1|].
  exact (result_independent_of_recursion_limit _ _ _ _ _ _ _ _ _ H0 H1).
Defined.





(** ** The characters of the body *)

Lemma str_all_app (P : ascii → bool) (s t : string) :
  str_all P (s +:+ t) = str_all P s && str_all P t.
Proof.
  induction s as [|a s IH]; [done|].
  rewrite str_app_cons. simpl. by rewrite IH, andb_assoc.
Qed.

Lemma str_all_concat (P : ascii → bool) (l : list string) :
  Forall (fun t => str_all P t = true) l → str_all P (str_concat l) = true.
Proof.
  induction 1 as [|t l Ht _ IH]; simpl; [done|].
  by rewrite str_all_app, Ht, IH.
Qed.

Lemma printable_pretty_N_go (x : N) (s : string) :
  str_all printable (pretty_N_go x s) = str_all printable s.
Proof.
  revert s. induction (N.lt_wf_0 x) as [x _ IH]; intros s.
  destruct (decide (x = 0%N)) as [->|Hx]; [by rewrite pretty_N_go_0|].
  rewrite pretty_N_go_step by lia. rewrite IH by (apply N.div_lt; lia).
  simpl. unfold pretty_N_char. by repeat case_match.
Qed.

Lemma printable_fmt_d (n : nat) : str_all printable (fmt_d n) = true.
Proof.
  unfold fmt_d, pretty, pretty_nat, pretty, pretty_N.
  case_decide; [done|]. by rewrite printable_pretty_N_go.
Qed.

Lemma printable_chr (six : N) :
  (six < 64)%N → printable (chr (0x3f + six)) = true.
Proof.
  intros Hsix. unfold printable, chr, nat_of_ascii.
  rewrite N_ascii_embedding by lia.
  apply andb_true_iff. split; [apply Nat.ltb_lt | apply Nat.ltb_lt]; lia.
Qed.

Lemma printable_run_text (r : run_t) :
  (r.1 < 64)%N → str_all printable (run_text r) = true.
Proof.
  destruct r as [six count]. simpl. intros Hsix. unfold run_text.
  pose proof (printable_chr six Hsix) as Hch.
  destruct (count <? 4).
  - induction count as [|n IH]; simpl; [done|]. by rewrite Hch, IH.
  - rewrite !str_all_app, printable_fmt_d. simpl. by rewrite Hch.
Qed.

Lemma printable_band_text (width : nat) (data : list nat)
    (rawdata : option (list rgba)) (alpha_threshold y band depth : nat)
    (buf : list node_t) :
  0 < band ≤ 6 →
  encode_band width data rawdata alpha_threshold y band depth = Ok buf →
  str_all printable (band_text buf) = true.
Proof.
  intros [Hpos Hle] Hrun. unfold band_text. apply str_all_concat.
  apply Forall_map.
  destruct (encode_band_spec _ _ _ _ _ _ _ _ Hpos Hrun) as (_ & Hall & _).
  eapply Forall_impl; [exact Hall|]. intros nd Hok. unfold node_text.
  rewrite !str_all_app, printable_fmt_d, str_all_concat; [done|].
  apply Forall_map, Forall_forall. intros r Hr. apply printable_run_text.
  eapply N.lt_le_trans; [by eapply node_ok_symbol_bound|].
  change 64%N with (2 ^ N.of_nat 6)%N. apply N.pow_le_mono_r; lia.
Qed.

Lemma emits_ret {A} (P : ascii → bool) (a : A) : emits P (io_ret a).
Proof.
  intros out r out' [= <- <-]. exists EmptyString.
  by rewrite str_app_nil_r.
Qed.

Lemma emits_lift {A} (P : ascii → bool) (m : result A) :
  emits P (io_lift m).
Proof.
  intros out r out' [= <- <-]. exists EmptyString.
  by rewrite str_app_nil_r.
Qed.

Lemma emits_write (P : ascii → bool) (s : string) :
  str_all P s = true → emits P (write_str s).
Proof. intros Hs out r out' [= <- <-]. by exists s. Qed.

Lemma emits_bind {A B} (P : ascii → bool) (m : io A) (k : A → io B) :
  emits P m →
  (∀ a out out', m out = (Ok a, out') → emits P (k a)) →
  emits P (io_bind m k).
Proof.
  intros Hm Hk out r out'. unfold io_bind.
  destruct (m out) as [[a|e] o1] eqn:E.
  - intros Hka. destruct (Hm _ _ _ E) as (r1 & -> & H1).
    destruct (Hk a _ _ E _ _ _ Hka) as (r2 & -> & H2).
    exists (r1 +:+ r2). by rewrite str_app_assoc, str_all_app, H1, H2.
  - intros [= <- <-]. by apply (Hm _ _ _ E).
Qed.

Lemma emits_for {A} (P : ascii → bool) (body : A → io unit) (l : list A) :
  (∀ a, a ∈ l → emits P (body a)) → emits P (io_for body l).
Proof.
  induction l as [|a l IH]; intros Hb; simpl.
  - apply emits_ret.
  - apply emits_bind; [apply Hb; left|].
    intros _ _ _ _. apply IH. intros b Hin. apply Hb. by right.
Qed.

Lemma range3_lt (h y : nat) : y ∈ range3 0 h 6 → y < h.
Proof.
  rewrite range3_bands. intros (k & -> & Hk)%list_elem_of_fmap.
  apply elem_of_seq in Hk.
  pose proof (Nat.div_mod_eq (h + 5) 6).
  pose proof (Nat.mod_upper_bound (h + 5) 6 ltac:(lia)). lia.
Qed.

Lemma band_height_bounds (h y : nat) : y < h → 0 < Nat.min 6 (h - y) ≤ 6.
Proof. lia. Qed.

Lemma emits_write_band (self : converter) (raw : option (list rgba))
    (depth y : nat) :
  y < height self → emits printable (write_band self raw depth y).
Proof.
  intros Hy out r out'. unfold write_band, io_bind, io_lift.
  destruct (encode_band _ _ _ _ _ _ _) as [buf|e] eqn:E.
  - pose proof (printable_band_text _ _ _ _ _ _ _ _
                  (band_height_bounds _ _ Hy) E) as Hb.
    rewrite write_nodes_out.
    destruct (y + 6 <? height self); unfold write_str, io_ret;
      intros [= <- <-].
    + exists (band_text buf +:+ "-").
      by rewrite str_app_assoc, str_all_app, Hb.
    + by exists (band_text buf).
  - intros [= <- <-]. exists EmptyString. by rewrite str_app_nil_r.
Qed.

Lemma emits_write_body_section (self : converter) (depth : nat) :
  emits printable (write_body_section self depth).
Proof.
  unfold write_body_section, write_body_bandwise.
  apply emits_bind; [|intros _ _ _ _].
  - apply emits_for. intros n _. unfold write_color.
    repeat (apply emits_bind; [apply emits_lift | intros ? _ _ _]).
    apply emits_write. by rewrite !str_all_app, !printable_fmt_d.
  - apply emits_for. intros y Hy. by apply emits_write_band, range3_lt.
Qed.

(** X10: whatever the body-only [write] appends to the sink, also when it
    stops with an exception, consists of printable ASCII characters other
    than the space (codes 33 to 126): the body holds no newline and no
    escape character, so it cannot contain the terminator. *)
Theorem body_is_printable (self : converter) (depth : nat)
    (out : string) :
  ∃ body,
    (write self true depth out).2 = out +:+ body
    ∧ str_all printable body = true
    ∧ count_char (ascii_of_nat 27) body = 0
    ∧ count_char (ascii_of_nat 10) body = 0.
Proof.
  assert (Hnone : ∀ c s, printable c = false →
                         str_all printable s = true → count_char c s = 0).
  { intros c s Hc. induction s as [|a s IH]; simpl; [done|].
    intros [Ha Hs]%andb_true_iff. rewrite IH by done.
    destruct (Ascii.eqb_spec a c) as [->|_]; [congruence | done]. }
  unfold write. simpl. unfold io_bind, io_ret.
  destruct (write_body_section self depth out) as [r o1] eqn:E.
  destruct (emits_write_body_section self depth _ _ _ E) as (body & -> & Hb).
  exists body. split_and!.
  - by destruct r.
  - done.
  - by apply Hnone.
  - by apply Hnone.
Qed.

(** ** Run-length compression and node colors, once more *)

(** X12: the run-length compressor of [add_node] loses nothing: pushing a
    sequence of symbols and closing the last Run gives Runs that expand
    back to the sequence, with no empty Run and no two adjacent Runs of
    the same symbol. *)
Theorem run_length_roundtrip (symbols : list N) :
  expand (rle_close (fold_left rle_push symbols ([], None, 0))) = symbols
  ∧ Forall (fun r : run_t => r.2 ≠ 0)
      (rle_close (fold_left rle_push symbols ([], None, 0)))
  ∧ adj_distinct
      (rle_close (fold_left rle_push symbols ([], None, 0))).*1.
Proof.
  destruct (rle_close_fold [] symbols) as [He [Hnz Hadj]];
    [constructor | done | by intros a l' _ |].
  done.
Qed.

(** X13: in the nodes of a band no color occurs twice, no node has the
    color BG, and the color of every node is the color of a visible pixel
    of the band. *)
Theorem node_colors_distinct_and_visible (width : nat) (data : list nat)
    (rawdata : option (list rgba)) (alpha_threshold y band depth : nat)
    (buf : list node_t) :
  0 < width → 0 < band →
  encode_band width data rawdata alpha_threshold y band depth = Ok buf →
  NoDup buf.*1
  ∧ ∀ n nd, buf !! n = Some nd →
      nd.1 ≠ BG
      ∧ ∃ x i, x < width ∧ i < band
          ∧ pixel_at width data rawdata alpha_threshold y x i = Ok nd.1.
Proof.
  intros Hw Hband Hrun.
  destruct (encode_band_spec _ _ _ _ _ _ _ _ Hband Hrun) as (Hnd & Hok & _).
  split; [done|]. intros n nd Hn. rewrite Forall_forall in Hok.
  destruct (Hok nd) as (Hbg & sx & (Hsx & i & Hi & Hp) & _).
  { by eapply list_elem_of_lookup_2. }
  split; [done|]. exists sx, i. split_and!; [lia | done | done].
Qed.

Lemma node_colors_distinct_and_visible_witness :
  0 < 2 ∧ 0 < 2
  ∧ encode_band 2 [0; 1; 1; 0] None 0 0 2 10
    = Ok [(1, [(2%N, 1); (1%N, 1)]); (0, [(1%N, 1); (2%N, 1)])]
  ∧ NoDup [(1, [(2%N, 1); (1%N, 1)]); (0, [(1%N, 1); (2%N, 1)])].*1.
Proof.
  assert (H0 : 0 < 2) by lia.
  assert (H1 : encode_band 2 [0; 1; 1; 0] None 0 0 2 10
               = Ok [(1, [(2%N, 1); (1%N, 1)]); (0, [(1%N, 1); (2%N, 1)])])
    by (vm_compute; reflexivity).
  split; [exact H0|]. split; [exact H0|]. split; [exact H1|].
  exact (proj1 (node_colors_distinct_and_visible _ _ _ _ _ _ _ _ H0 H0 H1)).
Defined.
